(** * meme-coin-aggregator: the aggregation, merge, cache and view pipeline

    A shallow embedding of
      - [src/utils/retry.ts]          (retryWithBackoff),
      - [src/services/cache.ts]       (CacheService),
      - [src/services/aggregator.ts]  (TokenAggregator),
      - [src/services/dex/]           (the loops of getPopularTokens,
                                       enrichTokenWithPrice),
      - [src/routes/tokens.ts]        (search and lookup by address),
      - [src/services/websocket.ts]   (the projection pushed to a client),
    together with the properties of the specification that concern them
    and further properties of the code.

    Conventions of the embedding.
      - A JavaScript [number] that carries a metric (price, volume, ...) is a
        rational [Q]: the finite, non-NaN values.  The code only compares
        such numbers, subtracts them inside sort comparators (where the sign
        alone is used) and takes maxima, all of which are exact on [Q].
      - Array indices, limits and parsed cursors are integers [Z]; the result
        of [parseInt] is [option Z], [None] standing for NaN.
      - Strings are [string]s of 8-bit characters; [toLowerCase] and the
        white space skipped by [parseInt] are the ASCII ones.
      - An optional field [f?: T] is an [option T]; [None] is [undefined].
      - A promise is given by the way it settles ([Outcome]); what the
        environment decides (how a fetch settles, what Redis replies, the
        clock, the random jitter) is an argument of the function that
        consumes it.  Calls of the logger are left out. *)

From Stdlib Require Import Ascii String DecimalString DecimalPos DecimalZ QArith Lqa.
From stdpp Require Import gmap strings list fin_maps sorting.

Set Warnings "-clear-no-such-hyp".

Local Open Scope string_scope.
Local Open Scope list_scope.
Local Open Scope Z_scope.

(** ** The fragment of the JavaScript runtime the program relies on *)

Module JS.

Definition number := Q.
Bind Scope Q_scope with number.

(** ToBoolean on a finite number: every value but zero is truthy. *)
Definition truthy (x : number) : bool := negb (Qeq_bool x 0).

(** ToBoolean on an optional number: [undefined] and [0] are falsy. *)
Definition truthy_opt (x : option number) : bool :=
  match x with
  | Some v => truthy v
  | None => false
  end.

(** ToBoolean on an optional string: [undefined] and [""] are falsy. *)
Definition truthy_str (x : option string) : bool :=
  match x with
  | Some "" => false
  | Some _ => true
  | None => false
  end.

(** [a || b] on numbers. *)
Definition or_num (a b : number) : number := if truthy a then a else b.

(** [a || b] where [a] is an optional number. *)
Definition or_opt (a : option number) (b : number) : number :=
  match a with
  | Some v => if truthy v then v else b
  | None => b
  end.

(** [a > b], [a >= b] on numbers. *)
Definition gt (a b : number) : bool := negb (Qle_bool a b).
Definition ge (a b : number) : bool := Qle_bool b a.

Definition Math_max (a b : number) : number := if Qle_bool a b then b else a.

(** [String.prototype.toLowerCase], on ASCII letters. *)
Definition lower_ascii (c : ascii) : ascii :=
  let n := nat_of_ascii c in
  if (65 <=? n)%nat && (n <=? 90)%nat then ascii_of_nat (n + 32) else c.

Fixpoint toLowerCase (s : string) : string :=
  match s with
  | EmptyString => EmptyString
  | String c s' => String (lower_ascii c) (toLowerCase s')
  end.

(** [String.prototype.includes]. *)
Fixpoint includes (s sub : string) : bool :=
  String.prefix sub s ||
  match s with
  | EmptyString => false
  | String _ s' => includes s' sub
  end.

(** The template literal [`${x}`] of an optional string. *)
Definition template (x : option string) : string :=
  match x with
  | Some s => s
  | None => "undefined"
  end.

(** [parseInt(s, 10)]: leading white space is skipped, one sign is read,
    then the longest prefix of decimal digits; no digit gives NaN. *)
Definition is_white_space (c : ascii) : bool :=
  let n := nat_of_ascii c in
  ((9 <=? n)%nat && (n <=? 13)%nat) || (n =? 32)%nat.

Fixpoint trim_start (s : string) : string :=
  match s with
  | String c s' => if is_white_space c then trim_start s' else s
  | EmptyString => EmptyString
  end.

Definition digit_value (c : ascii) : option Z :=
  let n := nat_of_ascii c in
  if (48 <=? n)%nat && (n <=? 57)%nat then Some (Z.of_nat (n - 48)) else None.

Fixpoint parse_digits (s : string) (acc : option Z) : option Z :=
  match s with
  | String c s' =>
      match digit_value c with
      | Some d => parse_digits s' (Some (10 * default 0 acc + d))
      | None => acc
      end
  | EmptyString => acc
  end.

Definition parseInt (s : string) : option Z :=
  match trim_start s with
  | String "-" r => Z.opp <$> parse_digits r None
  | String "+" r => parse_digits r None
  | r => parse_digits r None
  end.

(** [Number.prototype.toString] on an integer. *)
Definition toString (n : Z) : string :=
  DecimalString.NilZero.string_of_int (Z.to_int n).

(** [Array.prototype.slice(start, end)]: a negative index counts from the
    end of the array, every index is clamped to the array. *)
Definition relative_index (len : nat) (i : Z) : nat :=
  if i <? 0 then Z.to_nat (Z.max (Z.of_nat len + i) 0)
  else Z.to_nat (Z.min i (Z.of_nat len)).

Definition slice {A} (l : list A) (start finish : Z) : list A :=
  let k := relative_index (length l) start in
  let final := relative_index (length l) finish in
  take (final - k) (drop k l).

(** [Array.prototype.sort(cmp)].  ECMAScript requires the sort to be
    stable; with a comparator that orders the elements consistently every
    conforming engine returns the list computed here: [x] is placed
    before the first [y] with [cmp x y <= 0]. *)
Fixpoint sort_insert {A} (cmp : A → A → number) (x : A) (l : list A) : list A :=
  match l with
  | [] => [x]
  | y :: l' => if Qle_bool (cmp x y) 0 then x :: l else y :: sort_insert cmp x l'
  end.

Definition sort {A} (cmp : A → A → number) (l : list A) : list A :=
  foldr (sort_insert cmp) [] l.

(** [Map<string, V>]: the entries in insertion order.  [set] on a key
    that is present replaces the value where it stands. *)
Module Map.

Definition t (V : Type) := list (string * V).

Definition empty {V} : t V := [].

Fixpoint get {V} (k : string) (m : t V) : option V :=
  match m with
  | [] => None
  | (k', v) :: m' => if String.eqb k k' then Some v else get k m'
  end.

Fixpoint set {V} (k : string) (v : V) (m : t V) : t V :=
  match m with
  | [] => [(k, v)]
  | (k', v') :: m' =>
      if String.eqb k k' then (k', v) :: m' else (k', v') :: set k v m'
  end.

Definition values {V} (m : t V) : list V := snd <$> m.

Definition keys {V} (m : t V) : list string := fst <$> m.

End Map.

End JS.

(** The way a promise settles. *)
Inductive Outcome (E A : Type) : Type :=
| Resolved (value : A)
| Rejected (reason : E).
Arguments Resolved {E A} value.
Arguments Rejected {E A} reason.

(** ** [src/types/token.ts] *)

Record Token := mkToken {
  token_address : string;
  token_name : string;
  token_ticker : string;
  price_sol : JS.number;
  market_cap_sol : JS.number;
  volume_sol : JS.number;
  liquidity_sol : JS.number;
  transaction_count : JS.number;
  price_1hr_change : option JS.number;
  price_24hr_change : option JS.number;
  price_7d_change : option JS.number;
  protocol : string;
  source : option string;
  last_updated : option JS.number
}.

Record FilterOptions := mkFilterOptions {
  timePeriod : option string;
  minVolume : option JS.number;
  minLiquidity : option JS.number;
  filter_protocol : option string
}.

Record SortOptions := mkSortOptions {
  field : string;
  order : string
}.

Record PaginationOptions := mkPaginationOptions {
  limit : option Z;
  cursor : option string
}.

Record Page := mkPage {
  tokens : list Token;
  next_cursor : option string
}.

(** ** [src/services/aggregator.ts] *)

Module TokenAggregator.

Import JS.

(** [parseInt(process.env.MAX_AGGREGATED_TOKENS || '200', 10)] *)
Definition MAX_AGGREGATED_TOKENS (env : option string) : option Z :=
  parseInt (if truthy_str env then default "" env else "200").

Definition calculateDataCompleteness (token : Token) : nat :=
  ((if gt (volume_sol token) 0%Q then 3 else 0) +
   (if gt (liquidity_sol token) 0%Q then 2 else 0) +
   (if gt (market_cap_sol token) 0%Q then 2 else 0) +
   (if gt (transaction_count token) 0%Q then 1 else 0) +
   (if price_1hr_change token is Some _ then 1 else 0) +
   (if price_24hr_change token is Some _ then 1 else 0))%nat.

(** [primary] and [secondary] of [mergeTokenData]. *)
Definition primary (token1 token2 : Token) : Token :=
  if (calculateDataCompleteness token2 <=? calculateDataCompleteness token1)%nat
  then token1 else token2.

Definition secondary (token1 token2 : Token) : Token :=
  if (calculateDataCompleteness token2 <=? calculateDataCompleteness token1)%nat
  then token2 else token1.

Definition mergeTokenData (token1 token2 : Token) : Token :=
  let primary := primary token1 token2 in
  let secondary := secondary token1 token2 in
  {| token_address := token_address primary;
     token_name := token_name primary;
     token_ticker := token_ticker primary;
     price_sol :=
       if truthy_opt (last_updated primary) && truthy_opt (last_updated secondary)
       then (if gt (default 0%Q (last_updated primary))
                   (default 0%Q (last_updated secondary))
             then price_sol primary else price_sol secondary)
       else price_sol primary;
     market_cap_sol := or_num (market_cap_sol primary) (market_cap_sol secondary);
     volume_sol := Math_max (volume_sol primary) (volume_sol secondary);
     liquidity_sol := Math_max (liquidity_sol primary) (liquidity_sol secondary);
     transaction_count :=
       Math_max (transaction_count primary) (transaction_count secondary);
     price_1hr_change := price_1hr_change primary;
     price_24hr_change := price_24hr_change primary;
     price_7d_change := price_7d_change primary;
     protocol := protocol primary;
     source := Some (template (source primary) +:+ "," +:+ template (source secondary));
     last_updated := last_updated primary |}.

(** The key of the merge map: [token.token_address.toLowerCase()]. *)
Definition identityKey (token : Token) : string := toLowerCase (token_address token).

(** The body of the [for ... of] loop of [mergeTokens]. *)
Definition mergeStep (tokenMap : Map.t Token) (token : Token) : Map.t Token :=
  let key := identityKey token in
  match Map.get key tokenMap with
  | None => Map.set key token tokenMap
  | Some existing => Map.set key (mergeTokenData existing token) tokenMap
  end.

Definition mergeTokens (tokens : list Token) : list Token :=
  Map.values (foldl mergeStep Map.empty tokens).

(** [(a, b) => (b.volume_sol || 0) - (a.volume_sol || 0)] *)
Definition byVolumeDesc (a b : Token) : number :=
  (or_num (volume_sol b) 0 - or_num (volume_sol a) 0)%Q.

(** [cap] is the value of [MAX_AGGREGATED_TOKENS]. *)
Definition limitTokens (cap : Z) (tokens : list Token) : list Token :=
  if Z.of_nat (length tokens) <=? cap then tokens
  else slice (sort byVolumeDesc tokens) 0 cap.

(** [token[name] !== undefined] for a property name [name].  The five
    metrics, the three names and the category are always set; the names
    that are no field of [Token] are undefined. *)
Definition defined (token : Token) (name : string) : bool :=
  if String.eqb name "price_1hr_change" then bool_decide (is_Some (price_1hr_change token))
  else if String.eqb name "price_24hr_change" then bool_decide (is_Some (price_24hr_change token))
  else if String.eqb name "price_7d_change" then bool_decide (is_Some (price_7d_change token))
  else if String.eqb name "source" then bool_decide (is_Some (source token))
  else if String.eqb name "last_updated" then bool_decide (is_Some (last_updated token))
  else bool_decide (name ∈ ["token_address"; "token_name"; "token_ticker"; "price_sol";
                            "market_cap_sol"; "volume_sol"; "liquidity_sol";
                            "transaction_count"; "protocol"]).

(** [`price_${timePeriod}_change`] *)
Definition changeField (period : string) : string :=
  "price_" +:+ period +:+ "_change".

Definition filterTokens (tokens : list Token) (options : FilterOptions) : list Token :=
  let filtered := tokens in
  let filtered :=
    if truthy_str (timePeriod options)
    then List.filter (λ token, defined token (changeField (default "" (timePeriod options))))
                     filtered
    else filtered in
  let filtered :=
    match minVolume options with
    | Some m => List.filter (λ token, ge (volume_sol token) m) filtered
    | None => filtered
    end in
  let filtered :=
    match minLiquidity options with
    | Some m => List.filter (λ token, ge (liquidity_sol token) m) filtered
    | None => filtered
    end in
  let filtered :=
    if truthy_str (filter_protocol options)
    then List.filter
           (λ token, includes (toLowerCase (protocol token))
                              (toLowerCase (default "" (filter_protocol options))))
           filtered
    else filtered in
  filtered.

(** The [switch] of the comparator: the pair [(aValue, bValue)], or
    [None] in the [default] branch. *)
Definition sortValues (name : string) (a b : Token) : option (number * number) :=
  if String.eqb name "volume" then Some (volume_sol a, volume_sol b)
  else if String.eqb name "price_change" then
    Some (or_opt (price_24hr_change a) (or_opt (price_1hr_change a) 0%Q),
          or_opt (price_24hr_change b) (or_opt (price_1hr_change b) 0%Q))
  else if String.eqb name "market_cap" then Some (market_cap_sol a, market_cap_sol b)
  else if String.eqb name "liquidity" then Some (liquidity_sol a, liquidity_sol b)
  else if String.eqb name "transaction_count" then
    Some (transaction_count a, transaction_count b)
  else None.

Definition comparator (options : SortOptions) (a b : Token) : number :=
  match sortValues (field options) a b with
  | None => 0%Q
  | Some (aValue, bValue) =>
      if String.eqb (order options) "asc" then (aValue - bValue)%Q
      else (bValue - aValue)%Q
  end.

Definition sortTokens (tokens : list Token) (options : SortOptions) : list Token :=
  sort (comparator options) tokens.

(** [options.limit || 20] *)
Definition limitOrDefault (options : PaginationOptions) : Z :=
  match limit options with
  | Some n => if n =? 0 then 20 else n
  | None => 20
  end.

(** The value of [startIndex] when the slice is taken.  [parseInt] does
    not throw on a string, so the [catch] branch is never entered; it
    would give the same 0. *)
Definition startIndexOf (options : PaginationOptions) : Z :=
  if truthy_str (cursor options) then
    match parseInt (default "" (cursor options)) with
    | Some n => if n <? 0 then 0 else n
    | None => 0
    end
  else 0.

Definition paginateTokens (tokens : list Token) (options : PaginationOptions) : Page :=
  let limit := limitOrDefault options in
  let startIndex := startIndexOf options in
  let endIndex := startIndex + limit in
  {| tokens := slice tokens startIndex endIndex;
     next_cursor :=
       if endIndex <? Z.of_nat (length tokens) then Some (toString endIndex) else None |}.

(** The function handed to [cacheService.getOrSet] by [aggregateTokens].
    Each source is given with the way its [fetch()] promise settles. *)
Section Aggregate.

Context {E : Type}.

(** [PromiseSettledResult] *)
Inductive Settled : Type :=
| fulfilled (value : list Token)
| rejected (reason : E).

(** [Promise.allSettled]: waits for every promise, never rejects. *)
Definition allSettled (promises : list (Outcome E (list Token)))
  : Outcome E (list Settled) :=
  Resolved ((λ p, match p with
                  | Resolved v => fulfilled v
                  | Rejected e => rejected e
                  end) <$> promises).

Definition bind {A B} (p : Outcome E A) (k : A → Outcome E B) : Outcome E B :=
  match p with
  | Resolved a => k a
  | Rejected e => Rejected e
  end.

(** [sources]: DexScreener always, Jupiter when enabled and constructed. *)
Definition sources (enableJupiter : bool)
    (dexscreener : Outcome E (list Token))
    (jupiter : option (Outcome E (list Token)))
  : list (string * Outcome E (list Token)) :=
  [("DexScreener", dexscreener)] ++
  match jupiter with
  | Some j => if enableJupiter then [("Jupiter", j)] else []
  | None => []
  end.

(** [results.flatMap(...)]: the batch of a fulfilled source, nothing
    for a rejected one (which is only logged). *)
Definition flatten (results : list Settled) : list Token :=
  results ≫= (λ result,
    match result with
    | fulfilled value => value
    | rejected _ => []
    end).

Definition fetchAndMerge (cap : Z) (srcs : list (string * Outcome E (list Token)))
  : Outcome E (list Token) :=
  bind (allSettled (snd <$> srcs)) (λ results,
    let aggregatedTokens := flatten results in
    if (length aggregatedTokens =? 0)%nat then Resolved []
    else
      let merged := mergeTokens aggregatedTokens in
      let limited := limitTokens cap merged in
      Resolved limited).

End Aggregate.

End TokenAggregator.

(** ** [src/utils/retry.ts] *)

Module Retry.

Import JS.

(** What [fn] may throw: an Axios error, with the status of its response
    when there is one, or any other value. *)
Inductive Error : Type :=
| AxiosError (response : option Z)
| OtherError (message : string).

Definition isAxiosError (e : Error) : bool :=
  match e with
  | AxiosError _ => true
  | OtherError _ => false
  end.

Record RetryConfig := mkRetryConfig {
  maxRetries : option Z;
  baseDelay : option number;
  maxDelay : option number;
  retryableStatusCodes : option (list Z)
}.

Definition emptyConfig : RetryConfig := mkRetryConfig None None None None.

Definition defaultMaxRetries : Z := 3.
Definition defaultBaseDelay : number := 1000.
Definition defaultMaxDelay : number := 10000.
Definition defaultRetryableStatusCodes : list Z := [429; 500; 502; 503; 504].

(** [Math.min] *)
Definition Math_min (a b : number) : number := if Qle_bool a b then a else b.

(** [calculateBackoffDelay]; [random] is the value of [Math.random()]. *)
Definition calculateBackoffDelay (random : number) (attempt : nat)
    (baseDelay maxDelay : number) : number :=
  let exponentialDelay := (baseDelay * inject_Z (2 ^ Z.of_nat attempt))%Q in
  let jitter := (random * (3 # 10) * exponentialDelay)%Q in
  Math_min (exponentialDelay + jitter)%Q maxDelay.

Record Run (T : Type) := mkRun {
  result : Outcome (option Error) T;  (* [Rejected None] is [throw null] *)
  invocations : nat;                  (* calls of [fn] *)
  sleeps : list number                (* the delays slept, oldest first *)
}.
Arguments mkRun {T}.
Arguments result {T}.
Arguments invocations {T}.
Arguments sleeps {T}.

Section Loop.

Context {T : Type}.
(** [fn k] is the way the [k]-th invocation of the operation settles;
    [random k] is the [k]-th value drawn from [Math.random()]. *)
Variable fn : nat → Outcome Error T.
Variable random : nat → number.
Variable config : RetryConfig.

Definition maxRetries_ : Z := default defaultMaxRetries (maxRetries config).
Definition baseDelay_ : number := default defaultBaseDelay (baseDelay config).
Definition maxDelay_ : number := default defaultMaxDelay (maxDelay config).
Definition retryableStatusCodes_ : list Z :=
  default defaultRetryableStatusCodes (retryableStatusCodes config).

Definition isRetryable (e : Error) : bool :=
  match e with
  | AxiosError (Some status) => bool_decide (status ∈ retryableStatusCodes_)
  | AxiosError None => false
  | OtherError _ => false
  end.

(** The [for] loop, [remaining] iterations before [attempt] exceeds
    [maxRetries]. *)
Fixpoint loop (remaining attempt : nat) (lastError : option Error)
    (delays : list number) : Run T :=
  match remaining with
  | O => mkRun (Rejected lastError) attempt delays
  | S remaining' =>
      match fn attempt with
      | Resolved v => mkRun (Resolved v) (S attempt) delays
      | Rejected error =>
          if Z.of_nat attempt =? maxRetries_ then
            mkRun (Rejected (Some error)) (S attempt) delays
          else if negb (isRetryable error) && negb (isAxiosError error) then
            mkRun (Rejected (Some error)) (S attempt) delays
          else
            let delay := calculateBackoffDelay (random attempt) attempt
                           baseDelay_ maxDelay_ in
            loop remaining' (S attempt) (Some error) (delays ++ [delay])
      end
  end.

Definition retryWithBackoff : Run T :=
  loop (Z.to_nat (maxRetries_ + 1)) 0 None [].

End Loop.

End Retry.

(** ** [src/services/cache.ts] *)

Module CacheService.

(** What a call of the Redis client gives back: a reply, or a transport
    error (which the service catches). *)
Inductive RedisReply (A : Type) : Type :=
| Reply (a : A)
| RedisError.
Arguments Reply {A} a.
Arguments RedisError {A}.

Section Service.

(** The cached values, and what a compute function may throw. *)
Context {V E : Type}.

Record CacheEntry := mkCacheEntry {
  value : V;
  expiresAt : Z
}.

Record State := mkState {
  client : bool;                            (* [this.client !== null] *)
  defaultTTL : Z;
  inMemoryCache : gmap string CacheEntry;
  redisAvailable : bool;
  redisEnabled : bool
}.

Definition setMemory (m : gmap string CacheEntry) (st : State) : State :=
  mkState (client st) (defaultTTL st) m (redisAvailable st) (redisEnabled st).

Definition setAvailable (b : bool) (st : State) : State :=
  mkState (client st) (defaultTTL st) (inMemoryCache st) b (redisEnabled st).

(** [this.redisEnabled && this.redisAvailable && this.client] *)
Definition redisOn (st : State) : bool :=
  redisEnabled st && redisAvailable st && client st.

(** [now] is the value of [Date.now()]. *)
Definition getFromMemory (now : Z) (key : string) (st : State) : option V * State :=
  match inMemoryCache st !! key with
  | None => (None, st)
  | Some entry =>
      if expiresAt entry <? now
      then (None, setMemory (delete key (inMemoryCache st)) st)
      else (Some (value entry), st)
  end.

Definition cleanupMemoryCache (now : Z) (st : State) : State :=
  setMemory (filter (λ kv : string * CacheEntry, ¬ expiresAt kv.2 < now)
                    (inMemoryCache st)) st.

Definition setInMemory (now : Z) (key : string) (v : V) (ttl : Z) (st : State) : State :=
  let st' := setMemory (<[key := mkCacheEntry v (now + ttl * 1000)]> (inMemoryCache st)) st in
  if (1000 <? size (inMemoryCache st'))%nat then cleanupMemoryCache now st' else st'.

(** [get], after [client.get(key)] has settled with [reply] when Redis
    was tried.  A non-empty reply is the parsed value; a reply that
    [JSON.parse] rejects ends in the [catch] like a transport error. *)
Definition getSettle (reply : RedisReply (option V)) (now : Z) (key : string)
    (st : State) : option V * State :=
  match reply with
  | Reply (Some data) => (Some data, st)
  | Reply None => getFromMemory now key st
  | RedisError => getFromMemory now key (setAvailable false st)
  end.

(** [ttl || this.defaultTTL] *)
Definition cacheTTL (ttl : option Z) (st : State) : Z :=
  match ttl with
  | Some t => if t =? 0 then defaultTTL st else t
  | None => defaultTTL st
  end.

(** [set], after [client.setex] has settled when Redis was tried. *)
Definition setSettle (reply : RedisReply unit) (st : State) : State :=
  match reply with
  | Reply _ => st
  | RedisError => setAvailable false st
  end.

(** [get]: Redis first when it is on, [reply] being what [client.get]
    settles with; the memory tier otherwise and on a miss or an error. *)
Definition get (reply : RedisReply (option V)) (now : Z) (key : string) (st : State)
  : option V * State :=
  if redisOn st then getSettle reply now key st else getFromMemory now key st.

(** [set]: the memory tier always, then Redis when it is on, [reply] being
    what [client.setex] settles with. *)
Definition set (reply : RedisReply unit) (now : Z) (key : string) (v : V)
    (ttl : option Z) (st : State) : State :=
  let st' := setInMemory now key v (cacheTTL ttl st) st in
  if redisOn st' then setSettle reply st' else st'.

(** [del]: the memory tier always, then Redis when it is on; an error of
    [client.del] is caught like the others. *)
Definition del (reply : RedisReply unit) (key : string) (st : State) : State :=
  let st' := setMemory (delete key (inMemoryCache st)) st in
  if redisOn st' then setSettle reply st' else st'.

(** [close]: an error of [client.quit] is caught; the memory tier is
    cleared. *)
Definition close (st : State) : State := setMemory ∅ st.

(** [getOrSet] run alone, from call to return: the way it settles, the
    state it leaves and the number of calls of [fetchFn].  [fetch] is the way
    [fetchFn()] settles; [now] is the clock at the lookup, [now'] at the
    store. *)
Definition getOrSet (replyGet : RedisReply (option V)) (fetch : Outcome E V)
    (replySet : RedisReply unit) (now now' : Z) (key : string) (ttl : option Z)
    (st : State) : Outcome E V * State * nat :=
  let '(cached, st1) := get replyGet now key st in
  match cached with
  | Some v => (Resolved v, st1, 0%nat)
  | None =>
      match fetch with
      | Resolved data => (Resolved data, set replySet now' key data ttl st1, 1%nat)
      | Rejected e => (Rejected e, st1, 1%nat)
      end
  end.

(** *** [getOrSet] under cooperative scheduling

    A call of [getOrSet] runs until its next [await] and is resumed
    later, other calls running in between.  [Pc] is the point a call
    is suspended at. *)
Inductive Pc : Type :=
| Called                          (* not started *)
| AwaitRedisGet                   (* in [get]: [client.get] pending *)
| AwaitGet (cached : option V)    (* [await this.get(key)] settled *)
| ReturnedCached (cached : V)     (* [return cached] *)
| AwaitFetch                      (* [await fetchFn()] pending *)
| AwaitRedisSet (data : V)        (* in [set]: [client.setex] pending *)
| AwaitSet (data : V)             (* [await this.set(...)] settled *)
| ReturnedData (data : V)         (* [return data] *)
| Thrown (e : E).                 (* [fetchFn] rejected *)

(** What makes a suspended call run on. *)
Inductive Input : Type :=
| Resume (now : Z)
| RedisGetSettled (reply : RedisReply (option V)) (now : Z)
| FetchSettled (outcome : Outcome E V) (now : Z)
| RedisSetSettled (reply : RedisReply unit).

Inductive Event : Type :=
| Hit (caller : nat) (v : V)        (* returned the cached value *)
| Invoke (caller : nat)             (* called [fetchFn] *)
| Store (caller : nat) (v : V)      (* wrote [v] to the memory tier *)
| Return (caller : nat) (v : V).    (* returned the value it computed *)

Record System := mkSystem {
  service : State;
  callers : list Pc;
  fetchCalls : nat;           (* invocations of [fetchFn] so far *)
  trace : list Event          (* most recent first *)
}.

Variable key : string.
Variable ttl : option Z.

(** One run of caller [i] from its suspension point to the next: the
    new suspension point, the new state of the service, the number of
    calls of [fetchFn] made and the events of the run. *)
Definition advance (i : nat) (pc : Pc) (input : Input) (st : State)
  : option (Pc * State * nat * list Event) :=
  match pc, input with
  | Called, Resume now =>
      if redisOn st then Some (AwaitRedisGet, st, 0%nat, [])
      else let '(cached, st') := getFromMemory now key st in
           Some (AwaitGet cached, st', 0%nat, [])
  | AwaitRedisGet, RedisGetSettled reply now =>
      let '(cached, st') := getSettle reply now key st in
      Some (AwaitGet cached, st', 0%nat, [])
  | AwaitGet (Some cached), Resume _ =>
      Some (ReturnedCached cached, st, 0%nat, [Hit i cached])
  | AwaitGet None, Resume _ =>
      Some (AwaitFetch, st, 1%nat, [Invoke i])
  | AwaitFetch, FetchSettled (Resolved data) now =>
      let st' := setInMemory now key data (cacheTTL ttl st) st in
      if redisOn st' then Some (AwaitRedisSet data, st', 0%nat, [Store i data])
      else Some (AwaitSet data, st', 0%nat, [Store i data])
  | AwaitFetch, FetchSettled (Rejected e) _ =>
      Some (Thrown e, st, 0%nat, [])
  | AwaitRedisSet data, RedisSetSettled reply =>
      Some (AwaitSet data, setSettle reply st, 0%nat, [])
  | AwaitSet data, Resume _ =>
      Some (ReturnedData data, st, 0%nat, [Return i data])
  | _, _ => None
  end.

(** What happens next: a caller runs on, or the Redis connection signals
    that it is up (['connect'], ['ready']) or down (['error'], ['close']);
    the handlers of these signals set [redisAvailable]. *)
Inductive Move : Type :=
| Run (caller : nat) (input : Input)
| Connection (up : bool).

Definition step (sys : System) (move : Move) : option System :=
  match move with
  | Run i input =>
      pc ← callers sys !! i;
      '(pc', st', n, evs) ← advance i pc input (service sys);
      Some (mkSystem st' (<[i := pc']> (callers sys)) (fetchCalls sys + n)
                     (evs ++ trace sys))
  | Connection up =>
      if client (service sys)
      then Some (mkSystem (setAvailable up (service sys)) (callers sys)
                          (fetchCalls sys) (trace sys))
      else None
  end.

Fixpoint run (schedule : list Move) (sys : System) : option System :=
  match schedule with
  | [] => Some sys
  | move :: schedule' => sys' ← step sys move; run schedule' sys'
  end.

(** [n] calls of [getOrSet] made on a service in state [st]. *)
Definition start (st : State) (n : nat) : System :=
  mkSystem st (replicate n Called) 0 [].

Definition reachable (st : State) (n : nat) (sys : System) : Prop :=
  ∃ schedule, run schedule (start st n) = Some sys.

End Service.

Arguments CacheEntry V : clear implicits.
Arguments State V : clear implicits.
Arguments Pc V E : clear implicits.
Arguments Input V E : clear implicits.
Arguments Event V : clear implicits.
Arguments Move V E : clear implicits.
Arguments System V E : clear implicits.

(** [generateKey]: [`${prefix}:${parts.join(':')}`] *)
Definition generateKey (prefix : string) (parts : list string) : string :=
  prefix +:+ ":" +:+ String.concat ":" parts.

(** A fresh service with Redis switched off ([ENABLE_REDIS=false]). *)
Definition memoryOnly (V : Type) (ttl : Z) : State V :=
  mkState false ttl ∅ false false.

End CacheService.

(** ** [src/services/dex/jupiter.ts] and [dexscreener.ts]: gathering the
    popular tokens *)

Module DexClients.

Import JS.

(** The inner loop of [getPopularTokens]: a token is pushed unless its
    lower-cased address has been seen. *)
Definition pushUnseen (state : gset string * list Token) (token : Token)
  : gset string * list Token :=
  let '(seenAddresses, allTokens) := state in
  let key := toLowerCase (token_address token) in
  if decide (key ∈ seenAddresses) then state
  else ({[ key ]} ∪ seenAddresses, allTokens ++ [token]).

(** The outer loop: [found] is what [searchTokens] resolved with for each
    query in turn ([searchTokens] catches its own errors and resolves with
    []); of each answer the first [perQuery] tokens are looked at. *)
Definition gather (perQuery : Z) (state : gset string * list Token)
    (found : list (list Token)) : gset string * list Token :=
  foldl (λ state tokens, foldl pushUnseen state (slice tokens 0 perQuery)) state found.

(** [JupiterClient.getPopularTokens] *)
Definition jupiterPopular (TOKENS_PER_QUERY JUPITER_MAX_TOKENS : Z)
    (found : list (list Token)) : list Token :=
  slice (gather TOKENS_PER_QUERY (∅, []) found).2 0 JUPITER_MAX_TOKENS.

(** [DexScreenerClient.getPopularTokens]: [trending] is the transformed
    answer of the first request, [None] when that request failed or had no
    pairs; its tokens are pushed as they are, and are not marked as seen. *)
Definition dexscreenerPopular (MAX_TOKENS_PER_QUERY MAX_TOTAL_TOKENS : Z)
    (trending : option (list Token)) (found : list (list Token)) : list Token :=
  let allTokens :=
    match trending with
    | Some pairs => slice pairs 0 MAX_TOKENS_PER_QUERY
    | None => []
    end in
  slice (gather MAX_TOKENS_PER_QUERY (∅, allTokens) found).2 0 MAX_TOTAL_TOKENS.

(** [JupiterClient.enrichTokenWithPrice], once the price request has
    resolved: [price] is [priceResponse?.[address]?.price], [None] when it
    is missing; a missing or zero price gives [null]. *)
Definition enrichTokenWithPrice (address name symbol : string) (price : option number)
    (now : number) : option Token :=
  match price with
  | Some p =>
      if truthy p then
        Some {| token_address := address;
                token_name := name;
                token_ticker := symbol;
                price_sol := (p / 100)%Q;
                market_cap_sol := 0;
                volume_sol := 0;
                liquidity_sol := 0;
                transaction_count := 0;
                price_1hr_change := None;
                price_24hr_change := None;
                price_7d_change := None;
                protocol := "Jupiter";
                source := Some "jupiter";
                last_updated := Some now |}
      else None
  | None => None
  end.

End DexClients.

(** ** [src/routes/tokens.ts]: search and lookup *)

Module TokenRoutes.

Import JS.

(** A response: the JSON body of a 200, or the status of an error (whose
    body is a message). *)
Inductive Response (A : Type) : Type :=
| Ok (body : A)
| Status (code : Z).
Arguments Ok {A} body.
Arguments Status {A} code.

Record SearchBody := mkSearchBody {
  search_tokens : list Token;
  search_total : nat;
  search_query : string
}.

(** The predicate of [GET /search]. *)
Definition matchesQuery (query : string) (token : Token) : bool :=
  includes (toLowerCase (token_name token)) (toLowerCase query)
  || includes (toLowerCase (token_ticker token)) (toLowerCase query)
  || includes (toLowerCase (token_address token)) (toLowerCase query).

(** [GET /search], once [aggregateTokens] has resolved with [tokens]. *)
Definition search (q : option string) (tokens : list Token) : Response SearchBody :=
  if truthy_str q then
    let query := default "" q in
    let filtered := List.filter (matchesQuery query) tokens in
    Ok {| search_tokens := slice filtered 0 20;
          search_total := length filtered;
          search_query := query |}
  else Status 400.

(** [GET /:address], once [aggregateTokens] has resolved with [tokens]. *)
Definition byAddress (address : string) (tokens : list Token) : Response Token :=
  match List.find (λ t, String.eqb (toLowerCase (token_address t)) (toLowerCase address))
                  tokens with
  | Some token => Ok token
  | None => Status 404
  end.

End TokenRoutes.

(** ** [src/services/websocket.ts]: the projection pushed to a client *)

Module WebSocketService.

Import JS TokenAggregator.

Record ClientPreferences := mkClientPreferences {
  pref_filter : option FilterOptions;
  pref_sort : option SortOptions;
  pref_pagination : option PaginationOptions
}.

(** [aggregateAndProcessTokens]; [aggregate] is the way
    [aggregateTokens()] settles.  A rejection is caught and gives []. *)
Definition aggregateAndProcessTokens {E} (aggregate : Outcome E (list Token))
    (preferences : option ClientPreferences) : list Token :=
  match aggregate with
  | Rejected _ => []
  | Resolved aggregated =>
      if (length aggregated =? 0)%nat then []
      else
        let filtered :=
          match preferences ≫= pref_filter with
          | Some filter => filterTokens aggregated filter
          | None => aggregated
          end in
        let sorted :=
          match preferences ≫= pref_sort with
          | Some sort => sortTokens filtered sort
          | None => filtered
          end in
        let paginationOptions :=
          default (mkPaginationOptions (Some 25) None) (preferences ≫= pref_pagination) in
        tokens (paginateTokens sorted paginationOptions)
  end.

(** The registry of connected clients and the handlers that change it. *)
Inductive SocketEvent : Type :=
| connection (id : string)
| disconnect (id : string)
| subscribe (id : string) (preferences : option ClientPreferences)
| updatePreferences (id : string) (preferences : ClientPreferences).

Definition handle (connectedClients : gmap string ClientPreferences) (event : SocketEvent)
  : gmap string ClientPreferences :=
  match event with
  | connection id => <[id := mkClientPreferences None None None]> connectedClients
  | disconnect id => delete id connectedClients
  | subscribe id (Some preferences) => <[id := preferences]> connectedClients
  | subscribe id None => connectedClients
  | updatePreferences id preferences => <[id := preferences]> connectedClients
  end.

End WebSocketService.

(** * Properties *)

Import JS TokenAggregator.

(** ** Numbers *)

Section Numbers.

Implicit Types a b m : number.

Lemma ge_spec a b : ge a b = true ↔ (b <= a)%Q.
Proof. unfold ge. apply Qle_bool_iff. Qed.

Lemma gt_spec a b : gt a b = true ↔ (b < a)%Q.
Proof.
  unfold gt. rewrite negb_true_iff, <- not_true_iff_false, Qle_bool_iff.
  split; [apply Qnot_le_lt | apply Qlt_not_le].
Qed.

Lemma gt_false a b : gt a b = false ↔ (a <= b)%Q.
Proof. unfold gt. rewrite negb_false_iff. apply Qle_bool_iff. Qed.

Lemma truthy_spec a : truthy a = true ↔ ¬ (a == 0)%Q.
Proof.
  unfold truthy. rewrite negb_true_iff, <- not_true_iff_false, Qeq_bool_iff. tauto.
Qed.

Lemma truthy_false a : truthy a = false ↔ (a == 0)%Q.
Proof. unfold truthy. rewrite negb_false_iff. apply Qeq_bool_iff. Qed.

(** [m] is the larger of [a] and [b]. *)
Definition is_max a b m : Prop := (a <= m)%Q ∧ (b <= m)%Q ∧ (m = a ∨ m = b).

Lemma Math_max_is_max a b : is_max a b (Math_max a b).
Proof.
  unfold is_max, Math_max. destruct (Qle_bool a b) eqn:Hab.
  - apply Qle_bool_iff in Hab. repeat split; [done | apply Qle_refl | by right].
  - apply not_true_iff_false in Hab. rewrite Qle_bool_iff in Hab.
    apply Qnot_le_lt in Hab.
    repeat split; [apply Qle_refl | by apply Qlt_le_weak | by left].
Qed.

Lemma is_max_unique a b m m' : is_max a b m → is_max b a m' → (m == m')%Q.
Proof.
  intros (Ha & Hb & Hm) (Hb' & Ha' & Hm'). apply Qle_antisym.
  - by destruct Hm as [-> | ->].
  - by destruct Hm' as [-> | ->].
Qed.

Lemma Math_max_comm a b : (Math_max a b == Math_max b a)%Q.
Proof. eapply is_max_unique; apply Math_max_is_max. Qed.

End Numbers.

(** ** The insertion-ordered map *)

Section MapFacts.

Context {V : Type}.
Implicit Types (m : Map.t V) (k : string) (v : V).

Lemma get_None k m : Map.get k m = None ↔ k ∉ Map.keys m.
Proof.
  induction m as [|[k' v'] m IH]; simpl.
  - split; [intros _; apply not_elem_of_nil | done].
  - rewrite not_elem_of_cons. destruct (String.eqb_spec k k') as [->|Hne].
    + split; [done | intros [? _]; done].
    + rewrite IH. tauto.
Qed.

Lemma get_Some k v m : Map.get k m = Some v → (k, v) ∈ m.
Proof.
  induction m as [|[k' v'] m IH]; simpl; [done|].
  destruct (String.eqb_spec k k') as [->|Hne].
  - intros [= ->]. apply list_elem_of_here.
  - intros H. apply list_elem_of_further. auto.
Qed.

Lemma keys_set_absent k v m :
  k ∉ Map.keys m → Map.set k v m = m ++ [(k, v)].
Proof.
  induction m as [|[k' v'] m IH]; simpl; [done|].
  rewrite not_elem_of_cons. intros [Hne Hk].
  destruct (String.eqb_spec k k') as [->|_]; [done|]. by rewrite IH.
Qed.

Lemma keys_set_present k v m :
  k ∈ Map.keys m → Map.keys (Map.set k v m) = Map.keys m.
Proof.
  induction m as [|[k' v'] m IH]; simpl.
  - intros H. by apply elem_of_nil in H.
  - intros H. destruct (String.eqb_spec k k') as [->|Hne]; [done|].
    simpl. f_equal. apply IH. apply elem_of_cons in H as [?|?]; done.
Qed.

Lemma elem_of_set k v k' v' m :
  (k', v') ∈ Map.set k v m → (k' = k ∧ v' = v) ∨ (k', v') ∈ m.
Proof.
  induction m as [|[k0 v0] m IH]; simpl.
  - intros H. apply list_elem_of_singleton in H as [= -> ->]. by left.
  - destruct (String.eqb_spec k k0) as [->|Hne]; intros H.
    + apply elem_of_cons in H as [[= -> ->] | H]; [by left|].
      right. by apply list_elem_of_further.
    + apply elem_of_cons in H as [[= -> ->] | H].
      * right. apply list_elem_of_here.
      * destruct (IH H) as [?|?]; [by left|]. right. by apply list_elem_of_further.
Qed.

End MapFacts.

(** ** The merge engine *)

Section Merge.

Implicit Types (token existing : Token) (tokenMap : Map.t Token).

Lemma primary_cases token1 token2 :
  ((calculateDataCompleteness token2 ≤ calculateDataCompleteness token1)%nat
   ∧ primary token1 token2 = token1 ∧ secondary token1 token2 = token2)
  ∨ ((calculateDataCompleteness token1 < calculateDataCompleteness token2)%nat
     ∧ primary token1 token2 = token2 ∧ secondary token1 token2 = token1).
Proof.
  unfold primary, secondary.
  destruct (Nat.leb_spec (calculateDataCompleteness token2)
              (calculateDataCompleteness token1)); [left | right]; done.
Qed.

Lemma identityKey_merge existing token :
  identityKey existing = identityKey token →
  identityKey (mergeTokenData existing token) = identityKey token.
Proof.
  intros Hk. unfold identityKey, mergeTokenData in *. simpl.
  destruct (primary_cases existing token) as [(_ & -> & _) | (_ & -> & _)]; done.
Qed.

(** Every entry of the map is filed under its own identity key, and no key
    is filed twice. *)
Definition wellKeyed tokenMap : Prop :=
  NoDup (Map.keys tokenMap) ∧ ∀ k t, (k, t) ∈ tokenMap → identityKey t = k.

Lemma mergeStep_keys tokenMap token :
  Map.keys (mergeStep tokenMap token) =
    if decide (identityKey token ∈ Map.keys tokenMap) then Map.keys tokenMap
    else Map.keys tokenMap ++ [identityKey token].
Proof.
  unfold mergeStep. destruct (Map.get _ tokenMap) as [existing|] eqn:Hget.
  - assert (identityKey token ∈ Map.keys tokenMap) as Hin.
    { destruct (decide (identityKey token ∈ Map.keys tokenMap)) as [|Hn]; [done|].
      apply get_None in Hn. congruence. }
    rewrite decide_True by done. by apply keys_set_present.
  - apply get_None in Hget. rewrite decide_False by done.
    rewrite keys_set_absent by done. unfold Map.keys. by rewrite fmap_app.
Qed.

Lemma mergeStep_wellKeyed tokenMap token :
  wellKeyed tokenMap → wellKeyed (mergeStep tokenMap token).
Proof.
  intros [Hnd Hkey]. split.
  - rewrite mergeStep_keys. case_decide; [done|].
    apply NoDup_app. split_and!; [done | | apply NoDup_singleton].
    intros k Hk Hk'. apply list_elem_of_singleton in Hk'. by subst.
  - intros k t. unfold mergeStep.
    destruct (Map.get _ tokenMap) as [existing|] eqn:Hget; intros Hin;
      apply elem_of_set in Hin as [[-> ->] | Hin]; eauto.
    apply identityKey_merge. apply get_Some in Hget. eauto.
Qed.

Lemma foldl_mergeStep tokens tokenMap :
  wellKeyed tokenMap →
  wellKeyed (foldl mergeStep tokenMap tokens)
  ∧ (list_to_set (Map.keys (foldl mergeStep tokenMap tokens)) : gset string)
    = list_to_set (Map.keys tokenMap) ∪ list_to_set (identityKey <$> tokens).
Proof.
  revert tokenMap. induction tokens as [|token tokens IH]; intros tokenMap Hwk; simpl.
  - split; [done | set_solver].
  - destruct (IH (mergeStep tokenMap token)) as [Hwk' Hset].
    { by apply mergeStep_wellKeyed. }
    split; [done|]. rewrite Hset, mergeStep_keys.
    case_decide as Hin; [|rewrite list_to_set_app_L]; set_solver.
Qed.

Lemma wellKeyed_values tokenMap :
  wellKeyed tokenMap → identityKey <$> Map.values tokenMap = Map.keys tokenMap.
Proof.
  intros [_ Hkey]. unfold Map.values, Map.keys.
  induction tokenMap as [|[k t] m IH]; simpl; [done|].
  f_equal.
  - apply Hkey, list_elem_of_here.
  - apply IH. intros k' t' Hin. apply Hkey. by apply list_elem_of_further.
Qed.

(** C5.  Whatever the batch, [mergeTokens] returns as many records as
    there are distinct case-insensitive identity keys (lower-cased
    addresses) in the batch, and no identity key occurs twice among the
    returned records. *)
Theorem mergeTokens_distinct_keys (tokens : list Token) :
  length (mergeTokens tokens) = size (list_to_set (identityKey <$> tokens) : gset string)
  ∧ NoDup (identityKey <$> mergeTokens tokens).
Proof.
  unfold mergeTokens.
  destruct (foldl_mergeStep tokens Map.empty) as [Hwk Hset].
  { split; [apply NoDup_nil_2 | intros k t H; by apply elem_of_nil in H]. }
  rewrite wellKeyed_values by done. split; [|apply Hwk].
  replace (list_to_set (identityKey <$> tokens) : gset string)
    with (list_to_set (Map.keys (foldl mergeStep Map.empty tokens)) : gset string)
    by (rewrite Hset; set_solver).
  rewrite size_list_to_set by apply Hwk.
  unfold Map.values, Map.keys. by rewrite !length_fmap.
Qed.

(** *** Conflict resolution *)

(** The price rule in the words of the specification: the price of the
    record with the more recent timestamp, the primary winning ties and
    whenever a timestamp is absent. *)
Definition specifiedPrice (primary secondary : Token) : number :=
  match last_updated primary, last_updated secondary with
  | Some lp, Some ls => if gt ls lp then price_sol secondary else price_sol primary
  | _, _ => price_sol primary
  end.

(** The scenario of the specification, with no further field set: source
    "a" with volume 500 and no liquidity, source "b" with volume 300 and
    liquidity 200, seen in the same millisecond. *)
Definition scenarioA : Token :=
  mkToken "0xabc" "Alpha" "ALP" 1 0 500 0 0 None None None "Raydium" (Some "a") (Some 1000%Q).
Definition scenarioB : Token :=
  mkToken "0xabc" "Beta" "BET" 2 0 300 200 0 None None None "Orca" (Some "b") (Some 1000%Q).

(** C2, refuted as stated.  On the scenario records "b" is the more
    complete one and so the primary: the provenance is "b,a" and not
    "a,b"; and with equal timestamps the merged price is the secondary's,
    not the primary's. *)
Lemma mergeTokenData_claim_fails :
  identityKey scenarioA = identityKey scenarioB
  ∧ primary scenarioA scenarioB = scenarioB
  ∧ source (mergeTokenData scenarioA scenarioB) ≠ Some "a,b"
  ∧ ¬ (price_sol (mergeTokenData scenarioA scenarioB)
       == specifiedPrice (primary scenarioA scenarioB) (secondary scenarioA scenarioB))%Q.
Proof. split_and!; [done | done | by vm_compute | by vm_compute]. Qed.

(** C2, amended.  The merged record has the primary's identity, name,
    ticker and category, the primary being the record with the higher
    completeness score and the existing one on a tie; its provenance is
    the primary's source, a comma, the secondary's source; volume,
    liquidity and transaction count are the larger of the two values;
    the market value is the primary's unless that is zero, then the
    secondary's; the price is the primary's when its timestamp is
    strictly the more recent or when a timestamp is absent or zero, and
    the secondary's otherwise, a tie included.  Records from sources "a"
    (volume 500, liquidity 0) and "b" (volume 300, liquidity 200) merge
    into volume 500, liquidity 200 and provenance "a,b" when "a" is at
    least as complete as "b", "b,a" when it is not. *)
Theorem mergeTokenData_fields (token1 token2 : Token) :
  let p := primary token1 token2 in
  let s := secondary token1 token2 in
  let m := mergeTokenData token1 token2 in
  (p, s) = (if decide (calculateDataCompleteness token2 ≤ calculateDataCompleteness token1)%nat
            then (token1, token2) else (token2, token1))
  ∧ token_address m = token_address p
  ∧ token_name m = token_name p
  ∧ token_ticker m = token_ticker p
  ∧ protocol m = protocol p
  ∧ source m = Some (template (source p) +:+ "," +:+ template (source s))
  ∧ is_max (volume_sol p) (volume_sol s) (volume_sol m)
  ∧ is_max (liquidity_sol p) (liquidity_sol s) (liquidity_sol m)
  ∧ is_max (transaction_count p) (transaction_count s) (transaction_count m)
  ∧ (¬ (market_cap_sol p == 0)%Q → market_cap_sol m = market_cap_sol p)
  ∧ ((market_cap_sol p == 0)%Q → market_cap_sol m = market_cap_sol s)
  ∧ (∀ lp ls, last_updated p = Some lp → last_updated s = Some ls →
       ¬ (lp == 0)%Q → ¬ (ls == 0)%Q →
       ((ls < lp)%Q → price_sol m = price_sol p)
       ∧ ((lp <= ls)%Q → price_sol m = price_sol s))
  ∧ (truthy_opt (last_updated p) && truthy_opt (last_updated s) = false →
       price_sol m = price_sol p)
  ∧ (source token1 = Some "a" → source token2 = Some "b" →
     (volume_sol token1 == 500)%Q → (liquidity_sol token1 == 0)%Q →
     (volume_sol token2 == 300)%Q → (liquidity_sol token2 == 200)%Q →
     (volume_sol m == 500)%Q ∧ (liquidity_sol m == 200)%Q
     ∧ source m = Some (if decide (calculateDataCompleteness token2
                                    ≤ calculateDataCompleteness token1)%nat
                        then "a,b" else "b,a")).
Proof.
  intros p s m.
  assert (Hvol := Math_max_is_max (volume_sol p) (volume_sol s)).
  assert (Hliq := Math_max_is_max (liquidity_sol p) (liquidity_sol s)).
  split_and!; try done.
  - subst p s. destruct (primary_cases token1 token2) as [(H & -> & ->) | (H & -> & ->)].
    + by rewrite decide_True.
    + rewrite decide_False by lia. done.
  - apply Math_max_is_max.
  - intros H. subst m. simpl. fold p. unfold or_num.
    apply truthy_spec in H. by rewrite H.
  - intros H. subst m. simpl. fold p s. unfold or_num.
    apply truthy_false in H. by rewrite H.
  - intros lp ls Hp Hs Hlp Hls. subst m. simpl. fold p s. rewrite Hp, Hs. simpl.
    apply truthy_spec in Hlp, Hls. rewrite Hlp, Hls. simpl.
    split; intros H.
    + apply gt_spec in H. by rewrite H.
    + apply gt_false in H. by rewrite H.
  - intros H. subst m. simpl. fold p s. by rewrite H.
  - intros Ha Hb Hv1 Hl1 Hv2 Hl2.
    destruct Hvol as (Hv & Hv' & Hvm). destruct Hliq as (Hl & Hl' & Hlm).
    change (Math_max (volume_sol p) (volume_sol s)) with (volume_sol m) in *.
    change (Math_max (liquidity_sol p) (liquidity_sol s)) with (liquidity_sol m) in *.
    change (source m) with (Some (template (source p) +:+ "," +:+ template (source s))).
    subst p s.
    destruct (primary_cases token1 token2) as [(H & E1 & E2) | (H & E1 & E2)];
      rewrite E1, E2 in *.
    + rewrite decide_True by done. rewrite Ha, Hb.
      split_and!; [| |done];
        [destruct Hvm as [E|E] | destruct Hlm as [E|E]]; rewrite E in *; lra.
    + rewrite decide_False by lia. rewrite Ha, Hb.
      split_and!; [| |done];
        [destruct Hvm as [E|E] | destruct Hlm as [E|E]]; rewrite E in *; lra.
Qed.

(** *** Order of arrival *)

Lemma mergeTokens_pair (a b : Token) :
  identityKey a = identityKey b → mergeTokens [a; b] = [mergeTokenData a b].
Proof.
  intros Hk. unfold mergeTokens. simpl. unfold mergeStep at 2. simpl.
  unfold mergeStep. simpl. by rewrite <- Hk, String.eqb_refl.
Qed.

(** "The same output in all fields except name and category", in the
    words of the specification. *)
Definition sameButNameCategory (m1 m2 : Token) : Prop :=
  token_address m1 = token_address m2
  ∧ token_ticker m1 = token_ticker m2
  ∧ (price_sol m1 == price_sol m2)%Q
  ∧ (market_cap_sol m1 == market_cap_sol m2)%Q
  ∧ (volume_sol m1 == volume_sol m2)%Q
  ∧ (liquidity_sol m1 == liquidity_sol m2)%Q
  ∧ (transaction_count m1 == transaction_count m2)%Q
  ∧ price_1hr_change m1 = price_1hr_change m2
  ∧ price_24hr_change m1 = price_24hr_change m2
  ∧ price_7d_change m1 = price_7d_change m2
  ∧ source m1 = source m2
  ∧ last_updated m1 = last_updated m2.

(** Two records of one identity and one completeness score (3 each). *)
Definition tiedA : Token :=
  mkToken "0xabc" "Alpha" "TOK" 1 0 500 0 0 None None None "Raydium" (Some "a") None.
Definition tiedB : Token :=
  mkToken "0xabc" "Beta" "TOK" 1 0 300 0 0 None None None "Orca" (Some "b") None.

(** C4, refuted as stated.  The two orders give provenance "a,b" and
    "b,a": the outputs differ in a field that is neither the name nor the
    category. *)
Lemma mergeTokens_order_claim_fails :
  identityKey tiedA = identityKey tiedB
  ∧ calculateDataCompleteness tiedA = calculateDataCompleteness tiedB
  ∧ ∃ mAB mBA, mergeTokens [tiedA; tiedB] = [mAB] ∧ mergeTokens [tiedB; tiedA] = [mBA]
      ∧ source mAB = Some "a,b" ∧ source mBA = Some "b,a"
      ∧ ¬ sameButNameCategory mAB mBA.
Proof.
  split_and!; [done | done |]. eexists _, _. split_and!; [done | done | done | done |].
  intros (_ & _ & _ & _ & _ & _ & _ & _ & _ & _ & Hsrc & _). discriminate Hsrc.
Qed.

(** What a merged record copies from its primary. *)
Definition takenFrom (m primary : Token) : Prop :=
  token_address m = token_address primary
  ∧ token_name m = token_name primary
  ∧ token_ticker m = token_ticker primary
  ∧ protocol m = protocol primary
  ∧ price_1hr_change m = price_1hr_change primary
  ∧ price_24hr_change m = price_24hr_change primary
  ∧ price_7d_change m = price_7d_change primary
  ∧ last_updated m = last_updated primary.

(** C4, amended.  For two records A and B of one identity key and equal
    completeness scores, merging [A, B] and merging [B, A] each give one
    record; the two agree on volume, liquidity and transaction count, on
    the price when both timestamps are present, non-zero and different,
    and on the market value when one of the two market values is zero.
    Identity as written, name, ticker, category, change values and
    timestamp are those of the record that comes first in the input, and
    the provenance lists the two sources in input order. *)
Theorem mergeTokens_order (a b : Token) :
  identityKey a = identityKey b →
  calculateDataCompleteness a = calculateDataCompleteness b →
  ∃ mAB mBA,
    mergeTokens [a; b] = [mAB] ∧ mergeTokens [b; a] = [mBA]
    ∧ (volume_sol mAB == volume_sol mBA)%Q
    ∧ (liquidity_sol mAB == liquidity_sol mBA)%Q
    ∧ (transaction_count mAB == transaction_count mBA)%Q
    ∧ takenFrom mAB a ∧ takenFrom mBA b
    ∧ source mAB = Some (template (source a) +:+ "," +:+ template (source b))
    ∧ source mBA = Some (template (source b) +:+ "," +:+ template (source a))
    ∧ (∀ la lb, last_updated a = Some la → last_updated b = Some lb →
         ¬ (la == 0)%Q → ¬ (lb == 0)%Q → ¬ (la == lb)%Q →
         price_sol mAB = price_sol mBA)
    ∧ ((market_cap_sol a == 0)%Q ∨ (market_cap_sol b == 0)%Q →
         (market_cap_sol mAB == market_cap_sol mBA)%Q).
Proof.
  intros Hk Hscore. exists (mergeTokenData a b), (mergeTokenData b a).
  assert (primary a b = a ∧ secondary a b = b) as [Pab Sab].
  { unfold primary, secondary. rewrite Hscore, Nat.leb_refl. done. }
  assert (primary b a = b ∧ secondary b a = a) as [Pba Sba].
  { unfold primary, secondary. rewrite Hscore, Nat.leb_refl. done. }
  split_and!.
  - by apply mergeTokens_pair.
  - by apply mergeTokens_pair.
  - simpl. rewrite Pab, Sab, Pba, Sba. apply Math_max_comm.
  - simpl. rewrite Pab, Sab, Pba, Sba. apply Math_max_comm.
  - simpl. rewrite Pab, Sab, Pba, Sba. apply Math_max_comm.
  - unfold takenFrom. simpl. by rewrite Pab.
  - unfold takenFrom. simpl. by rewrite Pba.
  - simpl. by rewrite Pab, Sab.
  - simpl. by rewrite Pba, Sba.
  - intros la lb Ha Hb Hla Hlb Hne. simpl. rewrite Pab, Sab, Pba, Sba, Ha, Hb. simpl.
    apply truthy_spec in Hla, Hlb. rewrite Hla, Hlb. simpl.
    destruct (gt la lb) eqn:Hab, (gt lb la) eqn:Hba; try done.
    + apply gt_spec in Hab, Hba. lra.
    + apply gt_false in Hab, Hba. destruct Hne. by apply Qle_antisym.
  - intros H0. simpl. rewrite Pab, Sab, Pba, Sba. unfold or_num.
    destruct (truthy (market_cap_sol a)) eqn:Ta, (truthy (market_cap_sol b)) eqn:Tb;
      try reflexivity.
    + apply truthy_spec in Ta, Tb. tauto.
    + apply truthy_false in Ta, Tb. by rewrite Ta, Tb.
Qed.

End Merge.

(** ** The stable sort *)

Section SortFacts.

Context {A : Type} (cmp : A → A → number).

(** [x] need not come after [y]. *)
Definition notAfter (x y : A) : Prop := (cmp x y <= 0)%Q.

Lemma sort_insert_cases x y l :
  (notAfter x y ∧ sort_insert cmp x (y :: l) = x :: y :: l)
  ∨ (¬ notAfter x y ∧ sort_insert cmp x (y :: l) = y :: sort_insert cmp x l).
Proof.
  simpl. unfold notAfter. destruct (Qle_bool (cmp x y) 0) eqn:H.
  - left. by apply Qle_bool_iff in H.
  - right. split; [|done]. rewrite <- Qle_bool_iff. congruence.
Qed.

Lemma sort_insert_perm x l : sort_insert cmp x l ≡ₚ x :: l.
Proof.
  induction l as [|y l IH]; [done|].
  destruct (sort_insert_cases x y l) as [[_ ->] | [_ ->]]; [done|].
  rewrite IH. apply Permutation_swap.
Qed.

Lemma sort_perm l : sort cmp l ≡ₚ l.
Proof.
  induction l as [|x l IH]; [done|]. simpl.
  change (foldr (sort_insert cmp) [] l) with (sort cmp l).
  by rewrite sort_insert_perm, IH.
Qed.

(** A comparator that never orders two elements leaves the list as it is. *)
Lemma sort_indifferent l : (∀ x y, notAfter x y) → sort cmp l = l.
Proof.
  intros Hall. induction l as [|x l IH]; [done|]. simpl.
  change (foldr (sort_insert cmp) [] l) with (sort cmp l). rewrite IH.
  destruct l as [|y l]; [done|].
  destruct (sort_insert_cases x y l) as [[_ ->] | [Hn _]]; [done|].
  destruct Hn. apply Hall.
Qed.

(** Stability: the elements of a class [P] whose members the comparator
    does not order among themselves keep their relative order. *)
Lemma filter_sort_insert (P : A → bool) x l :
  (∀ y, P x = true → P y = true → notAfter x y) →
  List.filter P (sort_insert cmp x l) = List.filter P (x :: l).
Proof.
  intros HP. induction l as [|y l IH]; [done|].
  destruct (sort_insert_cases x y l) as [[_ ->] | [Hn ->]]; [done|].
  simpl in *. rewrite IH.
  destruct (P x) eqn:Px, (P y) eqn:Py; try done.
  destruct Hn. by apply HP.
Qed.

Lemma filter_sort (P : A → bool) l :
  (∀ x y, P x = true → P y = true → notAfter x y) →
  List.filter P (sort cmp l) = List.filter P l.
Proof.
  intros HP. induction l as [|x l IH]; [done|]. simpl.
  change (foldr (sort_insert cmp) [] l) with (sort cmp l).
  rewrite filter_sort_insert by (intros y; apply HP). simpl. by rewrite IH.
Qed.

Section Ordered.

Hypothesis total : ∀ x y, notAfter x y ∨ notAfter y x.

Lemma sort_insert_HdRel z x l :
  notAfter z x → HdRel notAfter z l → HdRel notAfter z (sort_insert cmp x l).
Proof.
  intros Hzx Hl. destruct l as [|y l]; [by constructor|].
  destruct (sort_insert_cases x y l) as [[_ ->] | [_ ->]].
  - by constructor.
  - constructor. by inversion Hl.
Qed.

Lemma sort_insert_sorted x l :
  Sorted notAfter l → Sorted notAfter (sort_insert cmp x l).
Proof.
  induction 1 as [|y l Hl IH Hhd]; [by repeat constructor|].
  destruct (sort_insert_cases x y l) as [[Hxy ->] | [Hn ->]].
  - repeat constructor; done.
  - constructor; [done|]. apply sort_insert_HdRel; [|done].
    destruct (total x y); done.
Qed.

Lemma sort_sorted l : Sorted notAfter (sort cmp l).
Proof.
  induction l as [|x l IH]; [constructor|]. simpl. by apply sort_insert_sorted.
Qed.

End Ordered.

End SortFacts.

Lemma Sorted_weaken {A} (R R' : relation A) l :
  (∀ x y, R x y → R' x y) → Sorted R l → Sorted R' l.
Proof.
  intros HR. induction 1 as [|x l Hl IH Hhd]; constructor; [done|].
  destruct Hhd; constructor; auto.
Qed.

(** Comparators that subtract one key from another. *)
Section KeyedSort.

Context {A : Type} (key : A → number).

Definition ascending (x y : A) : number := (key x - key y)%Q.
Definition descending (x y : A) : number := (key y - key x)%Q.

Definition keyLe (x y : A) : Prop := (key x <= key y)%Q.
Definition keyGe (x y : A) : Prop := (key y <= key x)%Q.

Lemma sort_ascending l : StronglySorted keyLe (sort ascending l).
Proof.
  apply Sorted_StronglySorted.
  { intros x y z. unfold keyLe. apply Qle_trans. }
  eapply Sorted_weaken; [|apply sort_sorted].
  - intros x y. unfold notAfter, ascending, keyLe. lra.
  - intros x y. unfold notAfter, ascending.
    destruct (Qlt_le_dec (key x) (key y)); [left | right]; lra.
Qed.

Lemma sort_descending l : StronglySorted keyGe (sort descending l).
Proof.
  apply Sorted_StronglySorted.
  { intros x y z. unfold keyGe. intros ??. by eapply Qle_trans. }
  eapply Sorted_weaken; [|apply sort_sorted].
  - intros x y. unfold notAfter, descending, keyGe. lra.
  - intros x y. unfold notAfter, descending.
    destruct (Qlt_le_dec (key x) (key y)); [right | left]; lra.
Qed.

(** The records of one key value, in the order they stand in. *)
Definition withKey (q : number) (l : list A) : list A :=
  List.filter (λ x, Qeq_bool (key x) q) l.

Lemma sort_ascending_stable q l : withKey q (sort ascending l) = withKey q l.
Proof.
  apply filter_sort. intros x y Hx Hy. apply Qeq_bool_iff in Hx, Hy.
  unfold notAfter, ascending. lra.
Qed.

Lemma sort_descending_stable q l : withKey q (sort descending l) = withKey q l.
Proof.
  apply filter_sort. intros x y Hx Hy. apply Qeq_bool_iff in Hx, Hy.
  unfold notAfter, descending. lra.
Qed.

End KeyedSort.

(** ** The size limit *)

Section Limit.

Lemma or_num_zero (v : number) : (or_num v 0 == v)%Q.
Proof.
  unfold or_num. destruct (truthy v) eqn:H; [done|].
  apply truthy_false in H. by rewrite H.
Qed.

Lemma byVolumeDesc_descending :
  byVolumeDesc = descending (λ t, or_num (volume_sol t) 0).
Proof. done. Qed.

Lemma slice_prefix {A} (l : list A) (n : Z) :
  0 ≤ n ≤ Z.of_nat (length l) → slice l 0 n = take (Z.to_nat n) l.
Proof.
  intros Hn. unfold slice, relative_index. simpl.
  destruct (Z.ltb_spec n 0); [lia|].
  rewrite Z.min_l by lia. rewrite Z.min_l by lia. simpl. by rewrite Nat.sub_0_r.
Qed.

Lemma default_cap : MAX_AGGREGATED_TOKENS None = Some 200.
Proof. done. Qed.

(** C6.  A list longer than the cap [C] is cut down to exactly [C]
    records, and no discarded record has a larger volume than a retained
    one; a list of at most [C] records is returned as it is.  The cap is
    200 when the environment does not set it. *)
Theorem limitTokens_cap (C : Z) (tokens : list Token) :
  0 ≤ C →
  MAX_AGGREGATED_TOKENS None = Some 200
  ∧ (Z.of_nat (length tokens) ≤ C → limitTokens C tokens = tokens)
  ∧ (C < Z.of_nat (length tokens) →
     Z.of_nat (length (limitTokens C tokens)) = C
     ∧ ∃ discarded,
         tokens ≡ₚ limitTokens C tokens ++ discarded
         ∧ ∀ r d, r ∈ limitTokens C tokens → d ∈ discarded →
                  (volume_sol d <= volume_sol r)%Q).
Proof.
  intros HC. split; [done|]. unfold limitTokens. split; intros Hlen.
  - destruct (Z.leb_spec (Z.of_nat (length tokens)) C); [done | lia].
  - destruct (Z.leb_spec (Z.of_nat (length tokens)) C); [lia|].
    assert (Hperm := sort_perm byVolumeDesc tokens).
    assert (length (sort byVolumeDesc tokens) = length tokens) as Hl
      by (by rewrite Hperm).
    rewrite slice_prefix by lia. split.
    + rewrite length_take. lia.
    + exists (drop (Z.to_nat C) (sort byVolumeDesc tokens)).
      rewrite take_drop. split; [done|]. intros r d Hr Hd.
      assert (keyGe (λ t, or_num (volume_sol t) 0) r d) as Hrd.
      { eapply StronglySorted_app_1_elem_of; [|done..].
        rewrite take_drop, byVolumeDesc_descending. apply sort_descending. }
      unfold keyGe in Hrd. by rewrite !or_num_zero in Hrd.
Qed.

End Limit.

(** ** The view pipeline: filter *)

Section Filter.

(** The three records of the aggregator's unit tests. *)
Definition mockTokens : list Token :=
  [ mkToken "0x123" "Token A" "TKA" (1 # 1000) 1000 500 200 100
      (Some 10%Q) (Some 20%Q) None "Raydium" (Some "dexscreener") None;
    mkToken "0x456" "Token B" "TKB" (2 # 1000) 2000 1000 400 200
      (Some (-5)%Q) (Some 15%Q) None "Jupiter" (Some "jupiter") None;
    mkToken "0x789" "Token C" "TKC" (3 # 1000) 3000 1500 600 300
      (Some 25%Q) (Some 30%Q) None "Raydium" (Some "dexscreener") None ].

Definition onlyPeriod (period : string) : FilterOptions :=
  mkFilterOptions (Some period) None None None.

Lemma changeField_1h : changeField "1h" = "price_1h_change".
Proof. done. Qed.

Lemma changeField_24h : changeField "24h" = "price_24h_change".
Proof. done. Qed.

Lemma filter_nothing {A} (l : list A) : List.filter (λ _, false) l = [].
Proof. induction l; done. Qed.

(** C9, the code at the failing input.  For the period "1h" the filter
    looks up the property "price_1h_change", which no record has (the
    field is price_1hr_change): every record is dropped, those of the
    unit test, which expects all three back, and a record whose one-hour
    change is exactly 0 alike.  The period "24h" fares the same. *)
Theorem filterTokens_timePeriod_1h :
  filterTokens mockTokens (onlyPeriod "1h") = []
  ∧ (∀ tokens, filterTokens tokens (onlyPeriod "1h") = [])
  ∧ (∀ tokens, filterTokens tokens (onlyPeriod "24h") = [])
  ∧ (∀ token, price_1hr_change token = Some 0%Q →
       filterTokens [token] (onlyPeriod "1h") = []).
Proof.
  assert (∀ tokens, filterTokens tokens (onlyPeriod "1h") = []) as H1.
  { intros tokens. unfold filterTokens. simpl. apply filter_nothing. }
  split_and!; [apply H1 | apply H1 | | intros; apply H1].
  intros tokens. unfold filterTokens. simpl. apply filter_nothing.
Qed.

(** The other parts of the filter do what the specification says. *)

Lemma filterTokens_7d tokens :
  filterTokens tokens (onlyPeriod "7d")
  = List.filter (λ t, bool_decide (is_Some (price_7d_change t))) tokens.
Proof. done. Qed.

Lemma filterTokens_minVolume tokens (m : number) token :
  token ∈ filterTokens tokens (mkFilterOptions None (Some m) None None)
  ↔ token ∈ tokens ∧ (m <= volume_sol token)%Q.
Proof.
  unfold filterTokens. simpl. rewrite !list_elem_of_In, filter_In.
  by rewrite ge_spec.
Qed.

Lemma filterTokens_minLiquidity tokens (m : number) token :
  token ∈ filterTokens tokens (mkFilterOptions None None (Some m) None)
  ↔ token ∈ tokens ∧ (m <= liquidity_sol token)%Q.
Proof.
  unfold filterTokens. simpl. rewrite !list_elem_of_In, filter_In.
  by rewrite ge_spec.
Qed.

Lemma filterTokens_protocol tokens (c : ascii) (s : string) token :
  token ∈ filterTokens tokens (mkFilterOptions None None None (Some (String c s)))
  ↔ token ∈ tokens
    ∧ includes (toLowerCase (protocol token)) (toLowerCase (String c s)) = true.
Proof.
  unfold filterTokens. cbn [timePeriod minVolume minLiquidity filter_protocol truthy_str default].
  by rewrite !list_elem_of_In, filter_In.
Qed.

(** The other filtering cases of the aggregator's unit tests. *)
Example filterTokens_tests :
  token_ticker <$> filterTokens mockTokens (mkFilterOptions None (Some 1000%Q) None None)
  = ["TKB"; "TKC"]
  ∧ token_ticker <$> filterTokens mockTokens (mkFilterOptions None None (Some 300%Q) None)
    = ["TKB"; "TKC"]
  ∧ token_ticker <$> filterTokens mockTokens (mkFilterOptions None None None (Some "Raydium"))
    = ["TKA"; "TKC"]
  ∧ token_ticker <$> filterTokens mockTokens
                       (mkFilterOptions None (Some 1000%Q) None (Some "Raydium"))
    = ["TKC"].
Proof. done. Qed.

End Filter.

(** ** The view pipeline: sort *)

Section Sort.

(** The key [price_change] sorts by:
    [price_24hr_change || price_1hr_change || 0]. *)
Definition bestChange (t : Token) : number :=
  or_opt (price_24hr_change t) (or_opt (price_1hr_change t) 0%Q).

(** The key each recognized field sorts by. *)
Definition sortKey (name : string) : option (Token → number) :=
  if String.eqb name "volume" then Some volume_sol
  else if String.eqb name "price_change" then Some bestChange
  else if String.eqb name "market_cap" then Some market_cap_sol
  else if String.eqb name "liquidity" then Some liquidity_sol
  else if String.eqb name "transaction_count" then Some transaction_count
  else None.

Definition sortFields : list string :=
  ["volume"; "price_change"; "market_cap"; "liquidity"; "transaction_count"].

Lemma sortValues_sortKey name a b :
  sortValues name a b = (λ key, (key a, key b)) <$> sortKey name.
Proof.
  unfold sortValues, sortKey.
  repeat (destruct (String.eqb name _); [done|]). done.
Qed.

Lemma sortKey_unrecognized name : name ∉ sortFields → sortKey name = None.
Proof.
  unfold sortFields, sortKey. rewrite !not_elem_of_cons. intros (?&?&?&?&?&_).
  repeat match goal with
         | |- context [String.eqb name ?s] =>
             destruct (String.eqb_spec name s); [congruence|]
         end.
  done.
Qed.

Lemma sort_ext {A} (cmp cmp' : A → A → number) l :
  (∀ x y, cmp x y = cmp' x y) → sort cmp l = sort cmp' l.
Proof.
  intros Hext. induction l as [|x l IH]; [done|]. simpl.
  change (foldr (sort_insert cmp) [] l) with (sort cmp l).
  change (foldr (sort_insert cmp') [] l) with (sort cmp' l).
  rewrite IH. generalize (sort cmp' l). intros k.
  induction k as [|y k IHk]; [done|]. simpl. by rewrite Hext, IHk.
Qed.

Lemma sortTokens_by_key tokens options key :
  sortKey (field options) = Some key →
  sortTokens tokens options =
    if String.eqb (order options) "asc" then sort (ascending key) tokens
    else sort (descending key) tokens.
Proof.
  intros Hkey. unfold sortTokens.
  destruct (String.eqb (order options) "asc") eqn:Hasc; apply sort_ext; intros x y;
    unfold comparator; by rewrite sortValues_sortKey, Hkey, Hasc.
Qed.

Lemma bestChange_cases (t : Token) :
  (truthy_opt (price_24hr_change t) = true → Some (bestChange t) = price_24hr_change t)
  ∧ (truthy_opt (price_24hr_change t) = false → truthy_opt (price_1hr_change t) = true →
       Some (bestChange t) = price_1hr_change t)
  ∧ (truthy_opt (price_24hr_change t) = false → truthy_opt (price_1hr_change t) = false →
       bestChange t = 0%Q).
Proof.
  unfold bestChange, or_opt, truthy_opt.
  destruct (price_24hr_change t) as [v|], (price_1hr_change t) as [w|];
    split_and!; intros H1; try intros H2; try rewrite H1; try rewrite H2; done.
Qed.

(** The best-available change in the words of the specification: the
    24-hour value if present, else the one-hour value, else zero. *)
Definition specifiedChange (t : Token) : number :=
  match price_24hr_change t, price_1hr_change t with
  | Some v, _ => v
  | None, Some w => w
  | None, None => 0
  end.

(** A record whose 24-hour change is exactly 0, and one that rose by 3. *)
Definition flat : Token :=
  mkToken "0xf1a7" "Flat" "FLT" 1 10 10 10 10 (Some 5%Q) (Some 0%Q) None "Raydium" None None.
Definition riser : Token :=
  mkToken "0x4153" "Riser" "RSR" 1 10 10 10 10 None (Some 3%Q) None "Raydium" None None.

(** C10, refuted as stated.  Sorted by descending best-available change,
    [riser] (3) must precede [flat] (0, present); the code moves [flat]
    to the front, because it ranks it by its one-hour change 5. *)
Lemma sortTokens_claim_fails :
  specifiedChange riser = 3%Q ∧ specifiedChange flat = 0%Q
  ∧ sortTokens [riser; flat] (mkSortOptions "price_change" "desc") = [flat; riser]
  ∧ ¬ StronglySorted (keyGe specifiedChange)
        (sortTokens [riser; flat] (mkSortOptions "price_change" "desc")).
Proof.
  split_and!; [done | done | done |].
  change (sortTokens _ _) with [flat; riser]. intros H.
  apply StronglySorted_inv in H as [_ H]. apply Forall_cons in H as [H _].
  unfold keyGe in H. apply Qle_bool_iff in H. by vm_compute in H.
Qed.

(** C10, amended.  For a recognized field, [sortTokens] returns the same
    records, ordered by the field's key in the requested direction
    (ascending for "asc", descending otherwise), records of equal key
    keeping their order (a stable sort).  The key of [price_change] is
    the 24-hour change when it is present and not zero, else the one-hour
    change when that is present and not zero, else zero.  For an
    unrecognized field the records are returned in their original order. *)
Theorem sortTokens_stable (tokens : list Token) (options : SortOptions) :
  (∀ key, sortKey (field options) = Some key →
     sortTokens tokens options ≡ₚ tokens
     ∧ StronglySorted (if String.eqb (order options) "asc" then keyLe key else keyGe key)
         (sortTokens tokens options)
     ∧ ∀ q, withKey key q (sortTokens tokens options) = withKey key q tokens)
  ∧ (field options ∉ sortFields → sortTokens tokens options = tokens)
  ∧ sortKey "volume" = Some volume_sol
  ∧ sortKey "price_change" = Some bestChange
  ∧ sortKey "market_cap" = Some market_cap_sol
  ∧ sortKey "liquidity" = Some liquidity_sol
  ∧ sortKey "transaction_count" = Some transaction_count
  ∧ ∀ t,
      (truthy_opt (price_24hr_change t) = true → Some (bestChange t) = price_24hr_change t)
      ∧ (truthy_opt (price_24hr_change t) = false →
         truthy_opt (price_1hr_change t) = true →
           Some (bestChange t) = price_1hr_change t)
      ∧ (truthy_opt (price_24hr_change t) = false →
         truthy_opt (price_1hr_change t) = false →
           bestChange t = 0%Q).
Proof.
  split_and!; try done; [| |apply bestChange_cases].
  - intros key Hkey. rewrite (sortTokens_by_key _ _ _ Hkey).
    destruct (String.eqb (order options) "asc"); split_and!.
    + apply sort_perm.
    + apply sort_ascending.
    + intros q. apply sort_ascending_stable.
    + apply sort_perm.
    + apply sort_descending.
    + intros q. apply sort_descending_stable.
  - intros Hno. apply sortKey_unrecognized in Hno. unfold sortTokens.
    apply sort_indifferent. intros x y. unfold notAfter, comparator.
    rewrite sortValues_sortKey, Hno. simpl. lra.
Qed.

(** The sorting cases of the aggregator's unit tests. *)
Example sortTokens_tests :
  token_ticker <$> sortTokens mockTokens (mkSortOptions "volume" "desc") = ["TKC"; "TKB"; "TKA"]
  ∧ token_ticker <$> sortTokens mockTokens (mkSortOptions "volume" "asc")
    = ["TKA"; "TKB"; "TKC"]
  ∧ token_ticker <$> sortTokens mockTokens (mkSortOptions "price_change" "desc")
    = ["TKC"; "TKA"; "TKB"]
  ∧ token_ticker <$> sortTokens mockTokens (mkSortOptions "market_cap" "desc")
    = ["TKC"; "TKB"; "TKA"].
Proof. done. Qed.

End Sort.

(** ** The view pipeline: paginate *)

Section Paginate.

(** *** A cursor written by [toString] is read back by [parseInt] *)

Lemma parse_digits_acc (d : Decimal.uint) (acc : positive) :
  parse_digits (NilEmpty.string_of_uint d) (Some (Z.pos acc))
  = Some (Z.pos (Pos.of_uint_acc d acc)).
Proof.
  revert acc. induction d; intros acc; [done|..];
    cbn [NilEmpty.string_of_uint parse_digits Pos.of_uint_acc];
    (etrans; [|apply IHd]); simpl; f_equal; f_equal; lia.
Qed.

Lemma parse_digits_zero (d : Decimal.uint) :
  parse_digits (NilEmpty.string_of_uint d) (Some 0) = Some (Z.of_uint d).
Proof.
  unfold Z.of_uint. induction d; [done | by etrans; [|apply IHd] |..];
    cbn [NilEmpty.string_of_uint parse_digits Pos.of_uint];
    (etrans; [|apply parse_digits_acc]); done.
Qed.

Lemma parse_digits_start (d : Decimal.uint) :
  d ≠ Decimal.Nil →
  parse_digits (NilEmpty.string_of_uint d) None
  = parse_digits (NilEmpty.string_of_uint d) (Some 0).
Proof. destruct d; done. Qed.

Lemma parseInt_digits (d : Decimal.uint) :
  d ≠ Decimal.Nil →
  parseInt (NilEmpty.string_of_uint d) = Some (Z.of_uint d)
  ∧ parseInt (String "-" (NilEmpty.string_of_uint d)) = Some (- Z.of_uint d).
Proof.
  intros Hd. split.
  - rewrite <- parse_digits_zero, <- parse_digits_start by done. destruct d; done.
  - unfold parseInt. cbn [trim_start is_white_space]. simpl.
    by rewrite parse_digits_start, parse_digits_zero.
Qed.

Lemma parseInt_toString (n : Z) : parseInt (toString n) = Some n.
Proof.
  rewrite <- (DecimalZ.of_to n) at 2. unfold toString.
  destruct n as [|p|p]; [done|..]; simpl;
    assert (Hp := Unsigned.to_uint_nonnil p);
    destruct (parseInt_digits (Pos.to_uint p) Hp) as [Hpos Hneg].
  - unfold NilZero.string_of_uint. destruct (Pos.to_uint p); done.
  - unfold NilZero.string_of_uint. destruct (Pos.to_uint p); done.
Qed.

(** *** The page *)

Lemma slice_window {A} (l : list A) (start count : Z) :
  0 ≤ start → 0 ≤ count →
  slice l start (start + count) = take (Z.to_nat count) (drop (Z.to_nat start) l).
Proof.
  intros Hs Hc. unfold slice, relative_index.
  destruct (Z.ltb_spec start 0); [lia|].
  destruct (Z.ltb_spec (start + count) 0); [lia|].
  destruct (decide (Z.of_nat (length l) ≤ start)) as [Hout|Hin].
  - rewrite !drop_ge by lia. by rewrite !take_nil.
  - replace (Z.to_nat (start `min` Z.of_nat (length l))) with (Z.to_nat start) by lia.
    destruct (decide (start + count ≤ Z.of_nat (length l))).
    + f_equal. lia.
    + rewrite !take_ge; [done | |]; rewrite length_drop; lia.
Qed.

(** The offset a cursor stands for: 0 when it is absent, unparseable or
    negative. *)
Definition offsetOf (cursor : option string) : Z :=
  match cursor ≫= parseInt with
  | Some n => Z.max 0 n
  | None => 0
  end.

Lemma startIndexOf_offsetOf options : startIndexOf options = offsetOf (cursor options).
Proof.
  unfold startIndexOf, offsetOf. destruct (cursor options) as [[|c s]|]; simpl; [done| |done].
  destruct (parseInt (String c s)) as [n|]; [|done].
  destruct (Z.ltb_spec n 0); lia.
Qed.

(** C8, refuted as stated.  The limit is not checked.  A negative limit
    makes [slice] count its end from the end of the list: with limit -1
    the page of the three test records holds two records, more than the
    limit, and the next cursor is "-1", which is no offset and is present
    even for the empty list, where nothing remains.  A limit of 0 is falsy
    and counts as 20: the page holds all three records, not none. *)
Lemma paginateTokens_claim_fails :
  let negative := mkPaginationOptions (Some (-1)) None in
  let zero := mkPaginationOptions (Some 0) None in
  tokens (paginateTokens mockTokens negative) = take 2 mockTokens
  ∧ ¬ Z.of_nat (length (tokens (paginateTokens mockTokens negative))) ≤ -1
  ∧ next_cursor (paginateTokens mockTokens negative) = Some "-1"
  ∧ paginateTokens [] negative = mkPage [] (Some "-1")
  ∧ tokens (paginateTokens mockTokens zero) = mockTokens
  ∧ ¬ Z.of_nat (length (tokens (paginateTokens mockTokens zero))) ≤ 0.
Proof. cbv zeta. split_and!; try done; simpl; lia. Qed.

(** C8, as the code has it.  [paginateTokens] is a total function: it
    returns a page for every list and every options record.  For a limit
    that is absent or not negative, the page starts at the offset of the
    cursor, which is 0 for an absent, unparseable or negative cursor, so
    that the cursors "not-a-number", "0" and none at all give the same
    page; the page size is the limit, or 20 when the limit is absent or
    0; the page holds at most that many records, those that follow the
    offset; and the next cursor is present exactly when records remain
    beyond the page, in which case it is the new offset in decimal, which
    [parseInt] reads back as that offset. *)
Theorem paginateTokens_page (records : list Token) (options : PaginationOptions) :
  (∀ n, limit options = Some n → 0 ≤ n) →
  let page := paginateTokens records options in
  let start := offsetOf (cursor options) in
  let count := limitOrDefault options in
  let finish := start + count in
  (limit options = None → count = 20)
  ∧ (∀ n, limit options = Some n → n ≠ 0 → count = n)
  ∧ tokens page = take (Z.to_nat count) (drop (Z.to_nat start) records)
  ∧ Z.of_nat (length (tokens page)) ≤ count
  ∧ records = take (Z.to_nat start) records ++ tokens page
               ++ drop (Z.to_nat finish) records
  ∧ (next_cursor page = Some (toString finish) ↔ drop (Z.to_nat finish) records ≠ [])
  ∧ (next_cursor page = None ↔ drop (Z.to_nat finish) records = [])
  ∧ offsetOf (Some (toString finish)) = finish
  ∧ offsetOf None = 0
  ∧ offsetOf (Some "not-a-number") = 0
  ∧ offsetOf (Some "-3") = 0
  ∧ paginateTokens records (mkPaginationOptions (limit options) (Some "not-a-number"))
    = paginateTokens records (mkPaginationOptions (limit options) (Some "0"))
  ∧ paginateTokens records (mkPaginationOptions (limit options) None)
    = paginateTokens records (mkPaginationOptions (limit options) (Some "0"))
  ∧ (limit options = Some 0 → count = 20).
Proof.
  intros Hlimit page start count finish.
  assert (0 ≤ start) as Hstart.
  { subst start. unfold offsetOf. destruct (_ ≫= _); lia. }
  assert (0 < count) as Hcount.
  { subst count. unfold limitOrDefault. destruct (limit options) as [n|] eqn:Hn; [|lia].
    specialize (Hlimit n eq_refl). destruct (Z.eqb_spec n 0); lia. }
  assert (tokens page
          = take (Z.to_nat count) (drop (Z.to_nat start) records)) as Hpage.
  { subst page. unfold paginateTokens. simpl. rewrite startIndexOf_offsetOf.
    apply slice_window; lia. }
  assert (next_cursor page
          = if finish <? Z.of_nat (length records) then Some (toString finish) else None)
    as Hnext.
  { subst page. unfold paginateTokens. simpl. by rewrite startIndexOf_offsetOf. }
  assert (drop (Z.to_nat finish) records = [] ↔ Z.of_nat (length records) ≤ finish) as Hrest.
  { split; intros H.
    - apply (f_equal length) in H. rewrite length_drop in H. simpl in H. lia.
    - apply drop_ge. lia. }
  split_and!; try done.
  - intros Hn. subst count. unfold limitOrDefault. by rewrite Hn.
  - intros n Hn Hn0. subst count. unfold limitOrDefault. rewrite Hn.
    destruct (Z.eqb_spec n 0); done.
  - rewrite Hpage, length_take. lia.
  - rewrite Hpage. replace (Z.to_nat finish) with (Z.to_nat start + Z.to_nat count)%nat
      by (subst finish; lia).
    rewrite <- drop_drop, take_drop. by rewrite take_drop.
  - rewrite Hnext, Hrest. destruct (Z.ltb_spec finish (Z.of_nat (length records)));
      split; (done || lia).
  - rewrite Hnext, Hrest. destruct (Z.ltb_spec finish (Z.of_nat (length records)));
      split; (done || lia).
  - unfold offsetOf. simpl. rewrite parseInt_toString. subst finish. lia.
  - intros Hn. subst count. unfold limitOrDefault. by rewrite Hn.
Qed.

(** The pagination cases of the aggregator's unit tests. *)
Example paginateTokens_tests :
  paginateTokens mockTokens (mkPaginationOptions None None) = mkPage mockTokens None
  ∧ paginateTokens mockTokens (mkPaginationOptions (Some 2) None)
    = mkPage (take 2 mockTokens) (Some "2")
  ∧ paginateTokens mockTokens (mkPaginationOptions (Some 2) (Some "2"))
    = mkPage (drop 2 mockTokens) None
  ∧ paginateTokens mockTokens (mkPaginationOptions (Some 2) (Some "invalid"))
    = mkPage (take 2 mockTokens) (Some "2").
Proof. done. Qed.

End Paginate.

(** ** The fetch orchestration *)

Section Orchestration.

Context {E : Type}.
Implicit Types (srcs : list (string * Outcome E (list Token))).

(** The concatenation of the successful batches, in the words of the
    specification: a failed fetch contributes nothing. *)
Fixpoint successfulBatches (fetches : list (Outcome E (list Token))) : list Token :=
  match fetches with
  | [] => []
  | Resolved batch :: rest => batch ++ successfulBatches rest
  | Rejected _ :: rest => successfulBatches rest
  end.

Definition failed (fetch : Outcome E (list Token)) : Prop :=
  ∃ e, fetch = Rejected e.

Lemma flatten_settled (fetches : list (Outcome E (list Token))) :
  ∃ results,
    allSettled fetches = Resolved results
    ∧ length results = length fetches
    ∧ flatten results = successfulBatches fetches.
Proof.
  eexists. split; [done|]. split; [by rewrite length_fmap|].
  unfold flatten. induction fetches as [|[batch|e] rest IH]; [done|..];
    rewrite fmap_cons, bind_cons, IH; done.
Qed.

Lemma successfulBatches_all_failed (fetches : list (Outcome E (list Token))) :
  Forall failed fetches → successfulBatches fetches = [].
Proof. induction 1 as [|? ? [e ->] _ IH]; done. Qed.

(** C7.  Whatever the enabled sources and however their fetches settle,
    the orchestration settles all of them and gathers the concatenation
    of the successful batches, a failed fetch contributing nothing; the
    function resolves (it never rejects) with that concatenation merged
    and limited, and with the empty list when every fetch failed; and a
    call of [getOrSet] that is handed this result does not throw.  The
    sources are DexScreener, and Jupiter when it is enabled. *)
Theorem fetchAndMerge_settles (cap : Z) srcs :
  (∃ results,
     allSettled (snd <$> srcs) = Resolved results
     ∧ length results = length srcs
     ∧ flatten results = successfulBatches (snd <$> srcs))
  ∧ (∃ tokens, fetchAndMerge cap srcs = Resolved tokens)
  ∧ fetchAndMerge cap srcs
    = Resolved (if decide (successfulBatches (snd <$> srcs) = []) then []
                else limitTokens cap (mergeTokens (successfulBatches (snd <$> srcs))))
  ∧ (Forall failed (snd <$> srcs) → fetchAndMerge cap srcs = Resolved [])
  ∧ (∀ i batch, (snd <$> srcs) !! i = Some (Resolved batch) →
       batch ⊆ successfulBatches (snd <$> srcs))
  ∧ (∀ d j : Outcome E (list Token), snd <$> sources true d (Some j) = [d; j])
  ∧ (∀ (d : Outcome E (list Token)) j, snd <$> sources false d j = [d])
  ∧ (∀ key ttl i now st pc' st' n evs,
       CacheService.advance key ttl i CacheService.AwaitFetch
         (CacheService.FetchSettled (fetchAndMerge cap srcs) now) st
       = Some (pc', st', n, evs) →
       ∃ tokens, fetchAndMerge cap srcs = Resolved tokens
                 ∧ evs = [CacheService.Store i tokens]
                 ∧ (pc' = CacheService.AwaitRedisSet tokens
                    ∨ pc' = CacheService.AwaitSet tokens)).
Proof.
  assert (fetchAndMerge cap srcs
    = Resolved (if decide (successfulBatches (snd <$> srcs) = []) then []
                else limitTokens cap (mergeTokens (successfulBatches (snd <$> srcs)))))
    as Hres.
  { unfold fetchAndMerge.
    destruct (flatten_settled (snd <$> srcs)) as (results & Hall & _ & Hflat).
    rewrite Hall. cbn [bind]. rewrite Hflat.
    destruct (successfulBatches (snd <$> srcs)); done. }
  split_and!.
  - destruct (flatten_settled (snd <$> srcs)) as (results & ? & Hlen & ?).
    rewrite length_fmap in Hlen. by exists results.
  - by eexists.
  - done.
  - intros Hall. rewrite Hres, successfulBatches_all_failed by done. done.
  - generalize (snd <$> srcs). intros fetches.
    induction fetches as [|fetch rest IH]; intros i batch Hi; [done|].
    destruct i as [|i]; simpl in Hi.
    + injection Hi as ->. simpl. set_solver.
    + specialize (IH i batch Hi). destruct fetch; simpl; set_solver.
  - done.
  - by intros d [j|].
  - intros key ttl i now st pc' st' n evs. rewrite Hres. simpl.
    intros H. eexists. split; [done|]. destruct (CacheService.redisOn _);
      injection H as <- <- <- <-; auto.
Qed.

End Orchestration.

(** ** The retry loop *)

Section RetryFacts.

Import Retry.

Context {T : Type}.
Variable random : nat → number.

(** The operation that answers "404 Not Found" every time. *)
Definition alwaysNotFound : nat → Outcome Error T :=
  λ _, Rejected (AxiosError (Some 404)).

(** C3, the code at the failing input.  404 is not a retryable status,
    yet the operation is invoked four times (the initial attempt and all
    three retries, with three sleeps in between) before the error
    propagates: the test that lets an error through at once asks for an
    error that is not an Axios error, whatever its status. *)
Theorem retryWithBackoff_not_found :
  let r := retryWithBackoff alwaysNotFound random emptyConfig in
  isRetryable emptyConfig (AxiosError (Some 404)) = false
  ∧ invocations r = 4%nat
  ∧ length (sleeps r) = 3%nat
  ∧ result r = Rejected (Some (AxiosError (Some 404))).
Proof. done. Qed.

(** An error that is not an Axios error does propagate at once. *)
Lemma retryWithBackoff_other (fn : nat → Outcome Error T) config message :
  0 ≤ maxRetries_ config →
  fn 0%nat = Rejected (OtherError message) →
  let r := retryWithBackoff fn random config in
  invocations r = 1%nat ∧ sleeps r = []
  ∧ result r = Rejected (Some (OtherError message)).
Proof.
  intros Hmax Hfn. unfold retryWithBackoff.
  destruct (Z.to_nat (maxRetries_ config + 1)) as [|remaining] eqn:Hrem; [lia|].
  cbn [loop]. rewrite Hfn. by destruct (Z.of_nat 0 =? maxRetries_ config).
Qed.

(** An Axios error is retried until the attempts run out, whatever its
    status and whatever the configured retryable statuses. *)
Lemma loop_axios (fn : nat → Outcome Error T) config response remaining attempt last delays :
  (∀ k, fn k = Rejected (AxiosError response)) →
  Z.of_nat (attempt + remaining) = maxRetries_ config + 1 →
  (0 < remaining)%nat →
  let r := loop fn random config remaining attempt last delays in
  invocations r = (attempt + remaining)%nat
  ∧ result r = Rejected (Some (AxiosError response)).
Proof.
  intros Hfn. revert attempt last delays.
  induction remaining as [|remaining IH]; intros attempt last delays Hsum Hpos; [lia|].
  simpl. rewrite Hfn. destruct (Z.eqb_spec (Z.of_nat attempt) (maxRetries_ config)) as [Heq|Hne].
  - simpl. split; [lia | done].
  - rewrite andb_false_r. destruct remaining as [|remaining]; [lia|].
    destruct (IH (S attempt) (Some (AxiosError response))
                (delays ++ [calculateBackoffDelay (random attempt) attempt
                              (baseDelay_ config) (maxDelay_ config)])) as [Hinv Hres];
      [lia | lia |].
    split; [rewrite Hinv; lia | done].
Qed.

(** X1.  An operation that keeps failing with the same Axios error is invoked
    [maxRetries + 1] times, whether or not its status is one of the
    retryable ones, and that error is what the run rejects with. *)
Lemma retryWithBackoff_axios (fn : nat → Outcome Error T) config response :
  0 ≤ maxRetries_ config →
  (∀ k, fn k = Rejected (AxiosError response)) →
  let r := retryWithBackoff fn random config in
  Z.of_nat (invocations r) = maxRetries_ config + 1
  ∧ result r = Rejected (Some (AxiosError response)).
Proof.
  intros Hmax Hfn. unfold retryWithBackoff.
  destruct (loop_axios fn config response (Z.to_nat (maxRetries_ config + 1)) 0 None [] Hfn)
    as [Hinv Hres]; [lia | lia |].
  split; [rewrite Hinv; lia | done].
Qed.

(** The scenario of the specification: two retryable failures, then a
    success, with three retries allowed: the value, after three calls. *)
Example retryWithBackoff_third_time (value : T) :
  let fn := λ k, if (k <? 2)%nat then Rejected (AxiosError (Some 503)) else Resolved value in
  let r := retryWithBackoff fn random emptyConfig in
  result r = Resolved value ∧ invocations r = 3%nat ∧ length (sleeps r) = 2%nat.
Proof. done. Qed.

End RetryFacts.

(** ** The cache: [getOrSet] under concurrent callers *)

Section GetOrSet.

Import CacheService.

Context {V E : Type}.
Variable key : string.
Variable ttl : option Z.

Implicit Types (st : State V) (sys : System V E) (pc : Pc V E).

(** The callers that found nothing in the cache and went on to [fetchFn]. *)
Definition missed pc : bool :=
  match pc with
  | AwaitFetch | AwaitRedisSet _ | AwaitSet _ | ReturnedData _ | Thrown _ => true
  | _ => false
  end.
















Lemma setInMemory_lookup now v t st :
  0 ≤ t →
  inMemoryCache (setInMemory now key v t st) !! key = Some (mkCacheEntry v (now + t * 1000)).
Proof.
  intros Ht. unfold setInMemory. case_match; simpl.
  - apply map_lookup_filter_Some. split; [apply lookup_insert_eq|]. simpl. lia.
  - apply lookup_insert_eq.
Qed.



End GetOrSet.

(** ** The cache on concrete runs *)

Section CacheExamples.

Import CacheService.

(** The key test of the cache's unit tests, and the key of the aggregate. *)
Example generateKey_parts :
  generateKey "prefix" ["part1"; "part2"; "123"] = "prefix:part1:part2:123"
  ∧ generateKey "tokens" ["aggregated"] = "tokens:aggregated".
Proof. done. Qed.

(** "should get or set with fetch function": of two calls made one after
    the other, the first computes and the second is served from the cache. *)
Example getOrSet_sequential :
  ∃ sys : System nat unit,
    run "test:getorset" (Some 60)
      [ Run 0 (Resume 0); Run 0 (Resume 0); Run 0 (FetchSettled (Resolved 7%nat) 5);
        Run 0 (Resume 5); Run 1 (Resume 9); Run 1 (Resume 9) ]
      (start (memoryOnly nat 30) 2) = Some sys
    ∧ callers sys = [ReturnedData 7%nat; ReturnedCached 7%nat]
    ∧ fetchCalls sys = 1%nat.
Proof. eexists. split; [by vm_compute | done]. Qed.

(** An entry is served until its time to live has passed. *)
Example getOrSet_expired :
  ∃ sys : System nat unit,
    run "test:getorset" (Some 60)
      [ Run 0 (Resume 0); Run 0 (Resume 0); Run 0 (FetchSettled (Resolved 7%nat) 5);
        Run 0 (Resume 5); Run 1 (Resume 60006); Run 1 (Resume 60006) ]
      (start (memoryOnly nat 30) 2) = Some sys
    ∧ callers sys = [ReturnedData 7%nat; AwaitFetch]
    ∧ fetchCalls sys = 2%nat.
Proof. eexists. split; [by vm_compute | done]. Qed.

End CacheExamples.

(** ** The single-flight claim on a concrete service *)

Section SingleFlight.

Import CacheService.





End SingleFlight.

(** ** The theorems at concrete inputs *)

Section Instances.

Import CacheService.



Lemma mergeTokenData_fields_witness :
  source scenarioA = Some "a" ∧ source scenarioB = Some "b"
  ∧ (volume_sol scenarioA == 500)%Q ∧ (liquidity_sol scenarioA == 0)%Q
  ∧ (volume_sol scenarioB == 300)%Q ∧ (liquidity_sol scenarioB == 200)%Q
  ∧ (market_cap_sol (primary scenarioA scenarioB) == 0)%Q
  ∧ last_updated (primary scenarioA scenarioB) = Some 1000%Q
  ∧ last_updated (secondary scenarioA scenarioB) = Some 1000%Q
  ∧ (¬ (1000 == 0)%Q) ∧ (1000 <= 1000)%Q
  ∧ (volume_sol (mergeTokenData scenarioA scenarioB) == 500)%Q
  ∧ (liquidity_sol (mergeTokenData scenarioA scenarioB) == 200)%Q
  ∧ source (mergeTokenData scenarioA scenarioB) = Some "b,a"
  ∧ market_cap_sol (mergeTokenData scenarioA scenarioB) = market_cap_sol scenarioA
  ∧ price_sol (mergeTokenData scenarioA scenarioB) = price_sol scenarioA.
Proof.
  destruct (mergeTokenData_fields scenarioA scenarioB)
    as (_ & _ & _ & _ & _ & _ & _ & _ & _ & _ & Hcap & Hprice & _ & H).
  assert (¬ (1000 == 0)%Q) as Hnz by (intros Heq; vm_compute in Heq; discriminate Heq).
  assert (1000 <= 1000)%Q as Hle by apply Qle_refl.
  split; [reflexivity|]. split; [reflexivity|].
  split; [reflexivity|]. split; [reflexivity|].
  split; [reflexivity|]. split; [reflexivity|].
  split; [reflexivity|]. split; [reflexivity|]. split; [reflexivity|].
  split; [exact Hnz|]. split; [exact Hle|].
  destruct (H eq_refl eq_refl (Qeq_refl _) (Qeq_refl _) (Qeq_refl _) (Qeq_refl _))
    as (Hv & Hl & Hs).
  split; [exact Hv|]. split; [exact Hl|]. split; [exact Hs|].
  split; [exact (Hcap (Qeq_refl _))|].
  exact (proj2 (Hprice 1000%Q 1000%Q eq_refl eq_refl Hnz Hnz) Hle).
Defined.

Lemma mergeTokens_order_witness :
  identityKey tiedA = identityKey tiedB
  ∧ calculateDataCompleteness tiedA = calculateDataCompleteness tiedB
  ∧ ∃ mAB mBA,
      mergeTokens [tiedA; tiedB] = [mAB] ∧ mergeTokens [tiedB; tiedA] = [mBA]
      ∧ (volume_sol mAB == volume_sol mBA)%Q
      ∧ token_name mAB = "Alpha" ∧ token_name mBA = "Beta".
Proof.
  split; [reflexivity|]. split; [reflexivity|].
  destruct (mergeTokens_order tiedA tiedB eq_refl eq_refl)
    as (mAB & mBA & HAB & HBA & Hvol & _ & _ & (_ & HnA & _) & (_ & HnB & _) & _).
  exists mAB, mBA. repeat split; assumption.
Defined.

Lemma limitTokens_cap_witness :
  0 ≤ 2 ∧ 2 < Z.of_nat (length mockTokens)
  ∧ Z.of_nat (length (limitTokens 2 mockTokens)) = 2.
Proof.
  split; [lia|]. split; [simpl; lia|].
  apply (limitTokens_cap 2 mockTokens); simpl; lia.
Defined.

Definition oneDown : list (string * Outcome string (list Token)) :=
  [("DexScreener", Rejected "timeout"); ("Jupiter", Resolved mockTokens)].

Definition allDown : list (string * Outcome string (list Token)) :=
  [("DexScreener", Rejected "timeout"); ("Jupiter", Rejected "503")].

Lemma fetchAndMerge_settles_witness :
  Forall failed (snd <$> allDown)
  ∧ fetchAndMerge 200 allDown = Resolved []
  ∧ fetchAndMerge 200 oneDown = Resolved mockTokens.
Proof.
  assert (Forall failed (snd <$> allDown)) as Hall.
  { repeat constructor; eexists; reflexivity. }
  split; [exact Hall|]. split.
  - apply (fetchAndMerge_settles 200 allDown). exact Hall.
  - destruct (fetchAndMerge_settles 200 oneDown) as (_ & _ & -> & _). reflexivity.
Defined.

Definition badCursor : PaginationOptions :=
  mkPaginationOptions (Some 2) (Some "not-a-number").

Lemma paginateTokens_page_witness :
  (∀ n, limit badCursor = Some n → 0 ≤ n)
  ∧ tokens (paginateTokens mockTokens badCursor) = take 2 mockTokens
  ∧ next_cursor (paginateTokens mockTokens badCursor) = Some "2".
Proof.
  assert (∀ n, limit badCursor = Some n → 0 ≤ n) as Hlimit.
  { intros n [= <-]. lia. }
  split; [exact Hlimit|].
  destruct (paginateTokens_page mockTokens badCursor Hlimit)
    as (_ & _ & Hpage & _ & _ & Hnext & _).
  split; [exact Hpage|]. apply Hnext. discriminate.
Defined.

Definition unmoved : Token :=
  mkToken "0x0" "Unmoved" "UNM" 1 10 10 10 10 (Some 0%Q) None None "Raydium" None None.

Lemma filterTokens_timePeriod_1h_witness :
  price_1hr_change unmoved = Some 0%Q
  ∧ filterTokens [unmoved] (onlyPeriod "1h") = [].
Proof.
  split; [reflexivity|].
  apply (proj2 (proj2 (proj2 filterTokens_timePeriod_1h))). reflexivity.
Defined.

Definition byVolumeDescending : SortOptions := mkSortOptions "volume" "desc".

Definition byNothing : SortOptions := mkSortOptions "name" "asc".

Lemma sortTokens_stable_witness :
  sortKey (field byVolumeDescending) = Some volume_sol
  ∧ (field byNothing ∉ sortFields)
  ∧ truthy_opt (price_24hr_change flat) = false
  ∧ truthy_opt (price_1hr_change flat) = true
  ∧ sortTokens mockTokens byVolumeDescending ≡ₚ mockTokens
  ∧ StronglySorted (keyGe volume_sol) (sortTokens mockTokens byVolumeDescending)
  ∧ sortTokens mockTokens byNothing = mockTokens
  ∧ Some (bestChange flat) = price_1hr_change flat.
Proof.
  assert (field byNothing ∉ sortFields) as Hno.
  { unfold sortFields. simpl. intros Hin.
    repeat (apply elem_of_cons in Hin as [Hin|Hin]; [discriminate Hin|]).
    by apply elem_of_nil in Hin. }
  split; [reflexivity|]. split; [exact Hno|]. split; [reflexivity|]. split; [reflexivity|].
  destruct (proj1 (sortTokens_stable mockTokens byVolumeDescending) volume_sol eq_refl)
    as (Hperm & Hsorted & _).
  split; [exact Hperm|]. split; [exact Hsorted|].
  destruct (sortTokens_stable mockTokens byNothing)
    as (_ & Hsame & _ & _ & _ & _ & _ & Hbest).
  split; [exact (Hsame Hno)|].
  exact (proj1 (proj2 (Hbest flat)) eq_refl eq_refl).
Defined.

End Instances.

(** * Further properties of the code *)

(** ** The retry loop: budget, delays and where a run stops *)

Section RetryBudget.

Import Retry.

Context {T : Type}.
Variable fn : nat → Outcome Error T.
Variable random : nat → number.
Variable config : RetryConfig.

Lemma Math_min_le (a b : number) : (Math_min a b <= a)%Q ∧ (Math_min a b <= b)%Q.
Proof.
  unfold Math_min. destruct (Qle_bool a b) eqn:H.
  - apply Qle_bool_iff in H. split; [apply Qle_refl | done].
  - apply not_true_iff_false in H. rewrite Qle_bool_iff in H. apply Qnot_le_lt in H.
    split; [by apply Qlt_le_weak | apply Qle_refl].
Qed.

Lemma Math_min_cases (a b : number) : Math_min a b = a ∨ Math_min a b = b.
Proof. unfold Math_min. destruct (Qle_bool a b); auto. Qed.

Lemma power_of_two_positive (k : nat) : (0 < inject_Z (2 ^ Z.of_nat k))%Q.
Proof.
  change 0%Q with (inject_Z 0). rewrite <- Zlt_Qlt. apply Z.pow_pos_nonneg; lia.
Qed.

(** X2.  The delay before a retry is never longer than [maxDelay]; it is at
    least the exponential delay [baseDelay * 2^attempt], or [maxDelay] if
    that is smaller, and at most 1.3 times the exponential delay, for a
    jitter drawn from [0, 1) and a base delay that is not negative. *)
Theorem calculateBackoffDelay_bounds (r : number) (attempt : nat) (base cap : number) :
  (0 <= r)%Q → (r < 1)%Q → (0 <= base)%Q →
  let exponentialDelay := (base * inject_Z (2 ^ Z.of_nat attempt))%Q in
  let delay := calculateBackoffDelay r attempt base cap in
  (delay <= cap)%Q
  ∧ (delay <= (13 # 10) * exponentialDelay)%Q
  ∧ (Math_min exponentialDelay cap <= delay)%Q.
Proof.
  intros Hr0 Hr1 Hbase exponentialDelay delay.
  assert (0 <= exponentialDelay)%Q as Hexp.
  { subst exponentialDelay. apply Qmult_le_0_compat; [done|].
    apply Qlt_le_weak, power_of_two_positive. }
  assert (0 <= r * exponentialDelay)%Q as Hj0 by (by apply Qmult_le_0_compat).
  assert (r * exponentialDelay <= exponentialDelay)%Q as Hj1.
  { rewrite <- (Qmult_1_l exponentialDelay) at 2.
    apply Qmult_le_compat_r; [by apply Qlt_le_weak | done]. }
  subst delay. unfold calculateBackoffDelay. fold exponentialDelay.
  set (jittered := (exponentialDelay + r * (3 # 10) * exponentialDelay)%Q).
  assert (exponentialDelay <= jittered)%Q as Hlow by (subst jittered; lra).
  assert (jittered <= (13 # 10) * exponentialDelay)%Q as Hhigh by (subst jittered; lra).
  destruct (Math_min_le jittered cap) as [Hmj Hmc].
  destruct (Math_min_le exponentialDelay cap) as [Hme Hmc'].
  split_and!; [done | lra |].
  destruct (Math_min_cases jittered cap) as [-> | ->]; [lra | done].
Qed.

(** The loop with [remaining] iterations left before [maxRetries] is
    passed. *)
Lemma loop_budget remaining attempt last delays :
  Z.of_nat (attempt + remaining) = maxRetries_ config + 1 → (0 < remaining)%nat →
  let r := loop fn random config remaining attempt last delays in
  (attempt < invocations r ≤ attempt + remaining)%nat
  ∧ ∃ slept, sleeps r = delays ++ slept
             ∧ length slept = (invocations r - attempt - 1)%nat
             ∧ Forall (λ d, (d <= maxDelay_ config)%Q) slept.
Proof.
  revert attempt last delays.
  induction remaining as [|remaining IH]; intros attempt last delays Hsum Hpos; [lia|].
  cbn [loop]. destruct (fn attempt) as [v|error].
  { simpl. split; [lia|]. exists []. rewrite app_nil_r. split_and!; [done | simpl; lia | done]. }
  destruct (Z.eqb_spec (Z.of_nat attempt) (maxRetries_ config)) as [Heq|Hne].
  { simpl. split; [lia|]. exists []. rewrite app_nil_r. split_and!; [done | simpl; lia | done]. }
  destruct (negb (isRetryable config error) && negb (isAxiosError error)).
  { simpl. split; [lia|]. exists []. rewrite app_nil_r. split_and!; [done | simpl; lia | done]. }
  destruct remaining as [|remaining]; [lia|].
  set (delay := calculateBackoffDelay (random attempt) attempt (baseDelay_ config)
                  (maxDelay_ config)).
  destruct (IH (S attempt) (Some error) (delays ++ [delay])) as [Hinv (slept & Hs & Hl & Hall)];
    [lia | lia |].
  split; [lia|]. exists (delay :: slept). split_and!.
  - by rewrite Hs, <- app_assoc.
  - cbn [length]. lia.
  - constructor; [|done]. apply Math_min_le.
Qed.

(** X3.  A run invokes the operation at least once and at most [maxRetries + 1]
    times, sleeps exactly once between two invocations, and never sleeps
    longer than [maxDelay]. *)
Theorem retryWithBackoff_budget :
  0 ≤ maxRetries_ config →
  let r := retryWithBackoff fn random config in
  (1 ≤ invocations r)%nat
  ∧ Z.of_nat (invocations r) ≤ maxRetries_ config + 1
  ∧ length (sleeps r) = (invocations r - 1)%nat
  ∧ Forall (λ d, (d <= maxDelay_ config)%Q) (sleeps r).
Proof.
  intros Hmax. unfold retryWithBackoff.
  destruct (loop_budget (Z.to_nat (maxRetries_ config + 1)) 0 None [])
    as [Hinv (slept & Hs & Hl & Hall)]; [lia | lia |].
  simpl in Hs. rewrite Hs. split_and!; [lia | lia | lia | done].
Qed.

(** X4.  With a negative [maxRetries] the operation is not invoked at all, and
    the run rejects with [null]. *)
Theorem retryWithBackoff_no_attempt :
  maxRetries_ config < 0 →
  retryWithBackoff fn random config = mkRun (Rejected None) 0 [].
Proof.
  intros Hneg. unfold retryWithBackoff.
  replace (Z.to_nat (maxRetries_ config + 1)) with 0%nat by lia. done.
Qed.

(** What ends a run before the retries are used up: a success, or an error
    that is not an Axios error. *)
Definition final (outcome : Outcome Error T) : Prop :=
  match outcome with
  | Resolved _ => True
  | Rejected e => isAxiosError e = false
  end.

Definition settled (outcome : Outcome Error T) : Outcome (option Error) T :=
  match outcome with
  | Resolved v => Resolved v
  | Rejected e => Rejected (Some e)
  end.

Lemma loop_stops remaining attempt last delays k :
  (∀ j, (attempt ≤ j < k)%nat → ∃ response, fn j = Rejected (AxiosError response)) →
  final (fn k) → (attempt ≤ k)%nat → (k < attempt + remaining)%nat →
  Z.of_nat (attempt + remaining) = maxRetries_ config + 1 →
  let r := loop fn random config remaining attempt last delays in
  result r = settled (fn k) ∧ invocations r = S k
  ∧ length (sleeps r) = (length delays + (k - attempt))%nat.
Proof.
  revert attempt last delays.
  induction remaining as [|remaining IH]; intros attempt last delays Hfail Hk Hle Hlt Hsum;
    [lia|].
  cbn [loop]. destruct (decide (attempt = k)) as [->|Hne].
  - destruct (fn k) as [v|error]; simpl in *.
    + split_and!; [done | done | lia].
    + destruct (Z.of_nat k =? maxRetries_ config); [split_and!; [done | done | simpl; lia]|].
      destruct error as [response|message]; [done|]. simpl.
      split_and!; [done | done | lia].
  - destruct (Hfail attempt) as [response ->]; [lia|].
    destruct (Z.eqb_spec (Z.of_nat attempt) (maxRetries_ config)); [lia|].
    rewrite andb_false_r.
    destruct (IH (S attempt) (Some (AxiosError response))
                (delays ++ [calculateBackoffDelay (random attempt) attempt
                              (baseDelay_ config) (maxDelay_ config)]))
      as (Hres & Hinv & Hlen); [intros j Hj; apply Hfail; lia | done | lia | lia | lia |].
    split_and!; [done | done |]. rewrite Hlen, length_app. simpl. lia.
Qed.

(** X5.  A run stops at the first invocation that succeeds or throws something
    other than an Axios error, the earlier invocations having thrown Axios
    errors (of any status): it settles as that invocation did, after
    [k + 1] invocations and [k] sleeps. *)
Theorem retryWithBackoff_stops (k : nat) :
  Z.of_nat k ≤ maxRetries_ config →
  (∀ j, (j < k)%nat → ∃ response, fn j = Rejected (AxiosError response)) →
  final (fn k) →
  let r := retryWithBackoff fn random config in
  result r = settled (fn k) ∧ invocations r = S k ∧ length (sleeps r) = k.
Proof.
  intros Hk Hfail Hfinal. unfold retryWithBackoff.
  destruct (loop_stops (Z.to_nat (maxRetries_ config + 1)) 0 None [] k)
    as (Hres & Hinv & Hlen); [intros j Hj; apply Hfail; lia | done | lia | lia | lia |].
  split_and!; [done | done |]. rewrite Hlen. simpl. lia.
Qed.

End RetryBudget.

(** ** The cache: [get], [set] and [del] *)

Section CacheOperations.

Import CacheService.

Context {V E : Type}.
Implicit Types (st : State V) (v : V) (key k : string).

(** A reply of [client.get] that does not carry a value. *)
Definition noRedisHit (reply : RedisReply (option V)) : Prop :=
  ∀ data, reply ≠ Reply (Some data).

Lemma getFromMemory_value now key st :
  (getFromMemory now key st).1
  = entry ← inMemoryCache st !! key;
    if expiresAt entry <? now then None else Some (value entry).
Proof.
  unfold getFromMemory. destruct (inMemoryCache st !! key) as [entry|]; [|done].
  simpl. by destruct (expiresAt entry <? now).
Qed.

Lemma get_memory reply now key st :
  noRedisHit reply → (get reply now key st).1 = (getFromMemory now key st).1.
Proof.
  intros Hno. unfold get. destruct (redisOn st); [|done].
  destruct reply as [[data|]|]; simpl; [by destruct (Hno data) | done |].
  by rewrite !getFromMemory_value.
Qed.

Lemma setSettle_memory reply st :
  inMemoryCache (setSettle reply st) = inMemoryCache st.
Proof. by destruct reply. Qed.

Lemma set_memory reply now key v ttl st :
  inMemoryCache (set reply now key v ttl st)
  = inMemoryCache (setInMemory now key v (cacheTTL ttl st) st).
Proof. unfold set. case_match; [apply setSettle_memory | done]. Qed.

Lemma setInMemory_other now now' key k v t st :
  k ≠ key → now ≤ now' →
  (getFromMemory now' k (setInMemory now key v t st)).1 = (getFromMemory now' k st).1.
Proof.
  intros Hne Hclock. rewrite !getFromMemory_value. unfold setInMemory.
  case_match; simpl; [|by rewrite lookup_insert_ne].
  destruct (inMemoryCache st !! k) as [entry|] eqn:Hk; simpl.
  - destruct (decide (expiresAt entry < now)) as [Hold|Hlive].
    + rewrite map_lookup_filter_None_2; simpl.
      * destruct (Z.ltb_spec (expiresAt entry) now'); [done | lia].
      * right. intros entry'. rewrite lookup_insert_ne by done. intros ? ?. by simplify_eq.
    + erewrite map_lookup_filter_Some_2; [done | by rewrite lookup_insert_ne | done].
  - rewrite map_lookup_filter_None_2; [done|]. left. by rewrite lookup_insert_ne.
Qed.

Lemma setInMemory_entry now key v t st :
  inMemoryCache (setInMemory now key v t st) !! key = Some (mkCacheEntry v (now + t * 1000))
  ∨ (inMemoryCache (setInMemory now key v t st) !! key = None ∧ t < 0).
Proof.
  destruct (decide (0 ≤ t)) as [Ht|Ht]; [left; by apply setInMemory_lookup|].
  unfold setInMemory. case_match; simpl; [|left; apply lookup_insert_eq].
  right. split; [|lia]. apply map_lookup_filter_None_2. right.
  intros entry. rewrite lookup_insert_eq. intros [= <-]. simpl. lia.
Qed.

(** X6.  What [set] stored, [get] returns until the entry expires, whatever
    Redis does short of answering with a value of its own: the memory tier
    serves the entry up to and including the instant [now + ttl * 1000]. *)
Theorem get_after_set replySet replyGet now now' key v ttl st :
  0 ≤ cacheTTL ttl st → now' ≤ now + cacheTTL ttl st * 1000 → noRedisHit replyGet →
  (get replyGet now' key (set replySet now key v ttl st)).1 = Some v.
Proof.
  intros Httl Hlive Hno. rewrite get_memory, getFromMemory_value, set_memory by done.
  rewrite setInMemory_lookup by done. simpl.
  destruct (Z.ltb_spec (now + cacheTTL ttl st * 1000) now'); [lia | done].
Qed.

(** X7.  Once the entry has expired, [get] answers [null] and drops the entry
    from the memory tier. *)
Theorem get_after_expiry replySet replyGet now now' key v ttl st :
  now + cacheTTL ttl st * 1000 < now' → noRedisHit replyGet →
  let after := get replyGet now' key (set replySet now key v ttl st) in
  after.1 = None ∧ inMemoryCache after.2 !! key = None.
Proof.
  intros Hdead Hno. simpl. split.
  - rewrite get_memory, getFromMemory_value, set_memory by done.
    destruct (setInMemory_entry now key v (cacheTTL ttl st) st) as [-> | [-> _]]; [|done].
    simpl. destruct (Z.ltb_spec (now + cacheTTL ttl st * 1000) now'); [done | lia].
  - assert (∀ st', inMemoryCache st' = inMemoryCache (set replySet now key v ttl st) →
              inMemoryCache (getFromMemory now' key st').2 !! key = None) as Hmem.
    { intros st' Hst'. unfold getFromMemory. rewrite Hst', set_memory.
      destruct (setInMemory_entry now key v (cacheTTL ttl st) st) as [Hin | [Hin _]];
        rewrite Hin; simpl.
      - destruct (Z.ltb_spec (now + cacheTTL ttl st * 1000) now'); [|lia].
        simpl. apply lookup_delete_eq.
      - by rewrite Hst', set_memory. }
    unfold get. destruct (redisOn _); [|by apply Hmem].
    destruct replyGet as [[data|]|]; simpl; [by destruct (Hno data) | by apply Hmem |].
    by apply Hmem.
Qed.

(** X8.  [del] removes the key, so that [get] answers [null] unless Redis still
    holds a value, and leaves every other key of the memory tier as it is. *)
Theorem get_after_del replyDel replyGet now key st :
  noRedisHit replyGet →
  (get replyGet now key (del replyDel key st)).1 = None
  ∧ ∀ k, k ≠ key → inMemoryCache (del replyDel key st) !! k = inMemoryCache st !! k.
Proof.
  intros Hno.
  assert (inMemoryCache (del replyDel key st) = delete key (inMemoryCache st)) as Hmem.
  { unfold del. case_match; [by rewrite setSettle_memory | done]. }
  split.
  - by rewrite get_memory, getFromMemory_value, Hmem, lookup_delete_eq.
  - intros k Hne. by rewrite Hmem, lookup_delete_ne.
Qed.

(** X9.  A [set] on one key does not change what the memory tier answers for
    another key at any later instant, even when it triggers the clean-up of
    expired entries. *)
Theorem get_other_key replySet replyGet now now' key k v ttl st :
  k ≠ key → now ≤ now' → noRedisHit replyGet →
  (get replyGet now' k (set replySet now key v ttl st)).1 = (get replyGet now' k st).1.
Proof.
  intros Hne Hclock Hno. rewrite !get_memory by done.
  rewrite (getFromMemory_value now' k (set _ _ _ _ _ _)), set_memory.
  rewrite <- getFromMemory_value. by apply setInMemory_other.
Qed.

(** X10.  A transport error of Redis is not an error of [get]: the memory tier
    answers, Redis is marked unavailable, and from then on [get] and [set]
    leave Redis alone, whatever it would reply. *)
Theorem get_falls_back now key st :
  redisOn st = true →
  let after := get RedisError now key st in
  after.1 = (getFromMemory now key st).1
  ∧ redisOn after.2 = false
  ∧ (∀ reply now' k, get reply now' k after.2 = getFromMemory now' k after.2)
  ∧ (∀ reply now' k v ttl,
       set reply now' k v ttl after.2 = setInMemory now' k v (cacheTTL ttl after.2) after.2).
Proof.
  intros Hon after.
  assert (after = getFromMemory now key (setAvailable false st)) as Hafter.
  { subst after. unfold get. by rewrite Hon. }
  assert (redisOn after.2 = false) as Hoff.
  { rewrite Hafter. unfold getFromMemory. simpl. repeat case_match; simpl;
      unfold redisOn; simpl; by rewrite andb_false_r. }
  split_and!.
  - by rewrite Hafter, !getFromMemory_value.
  - done.
  - intros reply now' k. unfold get. by rewrite Hoff.
  - intros reply now' k v ttl. unfold set.
    assert (∀ st', redisOn st' = false →
              redisOn (setInMemory now' k v (cacheTTL ttl st') st') = false) as Hkeep.
    { intros st' H. unfold setInMemory. case_match; exact H. }
    by rewrite Hkeep.
Qed.

(** [set] writes the memory tier whether or not Redis takes the value. *)
Theorem set_always_in_memory reply now key v ttl st :
  0 ≤ cacheTTL ttl st →
  inMemoryCache (set reply now key v ttl st) !! key
  = Some (mkCacheEntry v (now + cacheTTL ttl st * 1000)).
Proof. intros Httl. rewrite set_memory. by apply setInMemory_lookup. Qed.

End CacheOperations.

(** ** The cache: what the trace of concurrent [getOrSet] calls can hold *)

Section CacheTraces.

Import CacheService.

Context {V E : Type}.
Variable key : string.
Variable ttl : option Z.

Implicit Types (st : State V) (sys : System V E) (pc : Pc V E) (e : Event V).

Definition eventCaller e : nat :=
  match e with
  | Hit i _ | Invoke i | Store i _ | Return i _ => i
  end.

(** Where a caller must stand for an event of its own to be in the trace. *)
Definition explains pc e : Prop :=
  match e with
  | Hit _ v => pc = ReturnedCached v
  | Invoke _ => missed pc = true
  | Store _ v => pc = AwaitRedisSet v ∨ pc = AwaitSet v ∨ pc = ReturnedData v
  | Return _ v => pc = ReturnedData v
  end.

Definition attributed sys : Prop :=
  NoDup (trace sys)
  ∧ (∀ e, e ∈ trace sys →
       ∃ pc, callers sys !! eventCaller e = Some pc ∧ explains pc e)
  ∧ (∀ i pc, callers sys !! i = Some pc → missed pc = true → Invoke i ∈ trace sys).

Ltac advance_inv H :=
  unfold advance in H;
  repeat (case_match; try discriminate H); simplify_eq.

Lemma advance_keeps i pc input st pc' st' n evs e :
  advance key ttl i pc input st = Some (pc', st', n, evs) →
  explains pc e → explains pc' e.
Proof. intros H. advance_inv H; destruct e; simpl; naive_solver. Qed.

Lemma advance_emits i pc input st pc' st' n evs e :
  advance key ttl i pc input st = Some (pc', st', n, evs) → e ∈ evs →
  eventCaller e = i ∧ explains pc' e ∧ ¬ explains pc e.
Proof.
  intros H He. advance_inv H;
    try (by apply elem_of_nil in He);
    apply list_elem_of_singleton in He as ->; simpl; naive_solver.
Qed.

Lemma advance_invokes i pc input st pc' st' n evs :
  advance key ttl i pc input st = Some (pc', st', n, evs) →
  missed pc' = true → missed pc = true ∨ Invoke i ∈ evs.
Proof.
  intros H Hm. advance_inv H; simpl in *; try discriminate Hm; auto;
    right; apply list_elem_of_here.
Qed.

Lemma advance_few_events i pc input st pc' st' n evs :
  advance key ttl i pc input st = Some (pc', st', n, evs) → NoDup evs.
Proof.
  intros H. advance_inv H; (apply NoDup_nil_2 || apply NoDup_singleton).
Qed.

Lemma step_attributed sys move sys' :
  attributed sys → step key ttl sys move = Some sys' → attributed sys'.
Proof.
  intros (Hnd & Hexp & Hinv) Hstep. destruct move as [i input|up]; simpl in Hstep.
  2: { destruct (client (service sys)); [|done]. by injection Hstep as <-. }
  destruct (callers sys !! i) as [pc|] eqn:Hpc; [|done]. simpl in Hstep.
  destruct (advance key ttl i pc input (service sys)) as [[[[pc' st'] n] evs]|] eqn:Hadv;
    [|done].
  simpl in Hstep. injection Hstep as <-. unfold attributed. simpl.
  assert (i < length (callers sys))%nat as Hi by (by eapply lookup_lt_Some).
  split_and!.
  - apply NoDup_app. split_and!; [by eapply advance_few_events | | done].
    intros e He Hold. destruct (advance_emits _ _ _ _ _ _ _ _ e Hadv He) as (Hc & _ & Hnot).
    destruct (Hexp e Hold) as (pc0 & Hpc0 & Hexp0). rewrite Hc, Hpc in Hpc0.
    injection Hpc0 as <-. done.
  - intros e He. apply elem_of_app in He as [He|He].
    + destruct (advance_emits _ _ _ _ _ _ _ _ e Hadv He) as (Hc & Hnew & _).
      exists pc'. rewrite Hc, list_lookup_insert_eq by done. done.
    + destruct (Hexp e He) as (pc0 & Hpc0 & Hexp0).
      destruct (decide (i = eventCaller e)) as [->|Hne].
      * exists pc'. rewrite list_lookup_insert_eq by done. split; [done|].
        rewrite Hpc in Hpc0. injection Hpc0 as <-. by eapply advance_keeps.
      * exists pc0. by rewrite list_lookup_insert_ne.
  - intros j pcj Hj Hm. apply elem_of_app. destruct (decide (i = j)) as [<-|Hne].
    + rewrite list_lookup_insert_eq in Hj by done. injection Hj as <-.
      destruct (advance_invokes _ _ _ _ _ _ _ _ Hadv Hm) as [Hold|Hnew]; [|by left].
      right. by eapply Hinv.
    + rewrite list_lookup_insert_ne in Hj by done. right. by eapply Hinv.
Qed.

Lemma run_attributed schedule sys sys' :
  attributed sys → run key ttl schedule sys = Some sys' → attributed sys'.
Proof.
  revert sys. induction schedule as [|move schedule IH]; intros sys Hsys Hrun; simpl in Hrun.
  - by injection Hrun as <-.
  - destruct (step key ttl sys move) as [sys1|] eqn:Hstep; [|done].
    eapply IH; [|done]. by eapply step_attributed.
Qed.

Lemma start_attributed st n : attributed (start st n : System V E).
Proof.
  unfold attributed, start. simpl. split_and!.
  - apply NoDup_nil_2.
  - intros e He. by apply elem_of_nil in He.
  - intros i pc Hi Hm. apply lookup_replicate in Hi as [-> _]. done.
Qed.

(** X11.  However the calls interleave, no event happens twice: a caller calls
    [fetchFn] at most once, writes the cache at most once and returns at
    most once; and a value is written only by a caller that computed it. *)
Theorem getOrSet_events_once st n sys :
  reachable key ttl st n sys →
  NoDup (trace sys)
  ∧ ∀ i v, Store i v ∈ trace sys → Invoke i ∈ trace sys.
Proof.
  intros [schedule Hrun].
  destruct (run_attributed _ _ _ (start_attributed st n) Hrun) as (Hnd & Hexp & Hinv).
  split; [done|]. intros i v Hstore.
  destruct (Hexp _ Hstore) as (pc & Hpc & Hcases). simpl in *.
  eapply Hinv; [done|]. by destruct Hcases as [-> | [-> | ->]].
Qed.

(** X12.  A caller whose computation was rejected has written nothing to the
    cache, and a caller that was served from the cache has not called
    [fetchFn]. *)
Theorem getOrSet_failure_not_cached st n sys i :
  reachable key ttl st n sys →
  (∀ err v, callers sys !! i = Some (Thrown err) → Store i v ∉ trace sys)
  ∧ (∀ cached, callers sys !! i = Some (ReturnedCached cached) → Invoke i ∉ trace sys).
Proof.
  intros [schedule Hrun].
  destruct (run_attributed _ _ _ (start_attributed st n) Hrun) as (Hnd & Hexp & Hinv).
  split.
  - intros err v Hpc Hstore. destruct (Hexp _ Hstore) as (pc & Hpc' & Hcases).
    simpl in *. rewrite Hpc in Hpc'. injection Hpc' as <-.
    by destruct Hcases as [? | [? | ?]].
  - intros cached Hpc Hinvoke. destruct (Hexp _ Hinvoke) as (pc & Hpc' & Hcases).
    simpl in *. rewrite Hpc in Hpc'. by injection Hpc' as <-.
Qed.

End CacheTraces.

(** ** The cache: a call of [getOrSet] that runs alone *)

Section GetOrSetAlone.

Import CacheService.

Context {V E : Type}.
Variable key : string.
Variable ttl : option Z.

(** The moves of a single caller, from call to return. *)
Definition alone (replyGet : RedisReply (option V)) (fetch : Outcome E V)
    (replySet : RedisReply unit) (now now' : Z) (st : State V) : list (Move V E) :=
  [Run 0 (Resume now)]
  ++ (if redisOn st then [Run 0 (RedisGetSettled replyGet now)] else [])
  ++ [Run 0 (Resume now)]
  ++ match get replyGet now key st with
     | (Some _, _) => []
     | (None, st1) =>
         [Run 0 (FetchSettled fetch now')]
         ++ match fetch with
            | Resolved data =>
                (if redisOn (setInMemory now' key data (cacheTTL ttl st1) st1)
                 then [Run 0 (RedisSetSettled replySet)] else [])
                ++ [Run 0 (Resume now')]
            | Rejected _ => []
            end
     end.

(** Where the caller ends. *)
Definition ending (outcome : Outcome E V) (fetched : nat) : Pc V E :=
  match outcome, fetched with
  | Resolved v, O => ReturnedCached v
  | Resolved v, S _ => ReturnedData v
  | Rejected e, _ => Thrown e
  end.

(** X13.  A call that runs alone goes through [get], [fetchFn] and [set] one
    after the other: the concurrent machine, driven by the moves of that one
    caller, ends where the sequential [getOrSet] says, with the same state
    of the service and the same number of calls of [fetchFn] (none on a
    hit, one on a miss). *)
Theorem getOrSet_alone replyGet fetch replySet now now' (st : State V) :
  let '(outcome, st', fetched) := getOrSet replyGet fetch replySet now now' key ttl st in
  ∃ sys, run key ttl (alone replyGet fetch replySet now now' st) (start st 1) = Some sys
         ∧ service sys = st'
         ∧ callers sys = [ending outcome fetched]
         ∧ fetchCalls sys = fetched.
Proof.
  unfold getOrSet, alone, get, set.
  destruct (redisOn st) eqn:Hon.
  - destruct (getSettle replyGet now key st) as [[cached|] st1] eqn:Hget.
    + eexists. simpl. rewrite Hon. simpl. rewrite Hget. simpl. done.
    + destruct fetch as [data|err].
      * destruct (redisOn (setInMemory now' key data (cacheTTL ttl st1) st1)) eqn:Hon';
          eexists; simpl; rewrite Hon; simpl; rewrite Hget; simpl; rewrite Hon'; simpl; done.
      * eexists. simpl. rewrite Hon. simpl. rewrite Hget. simpl. done.
  - destruct (getFromMemory now key st) as [[cached|] st1] eqn:Hget.
    + eexists. simpl. rewrite Hon. simpl. rewrite Hget. simpl. done.
    + destruct fetch as [data|err].
      * destruct (redisOn (setInMemory now' key data (cacheTTL ttl st1) st1)) eqn:Hon';
          eexists; simpl; rewrite Hon; simpl; rewrite Hget; simpl; rewrite Hon'; simpl; done.
      * eexists. simpl. rewrite Hon. simpl. rewrite Hget. simpl. done.
Qed.

End GetOrSetAlone.

(** ** The merge engine: what a merged batch holds *)

Section MergeMore.

Implicit Types (token r : Token) (tokenMap : Map.t Token) (k : string).

Lemma values_snoc tokenMap k token :
  Map.values (tokenMap ++ [(k, token)]) = Map.values tokenMap ++ [token].
Proof. unfold Map.values. by rewrite fmap_app. Qed.

Lemma foldl_mergeStep_distinct tokens tokenMap :
  NoDup (Map.keys tokenMap ++ (identityKey <$> tokens)) →
  foldl mergeStep tokenMap tokens = tokenMap ++ ((λ t, (identityKey t, t)) <$> tokens).
Proof.
  revert tokenMap. induction tokens as [|token tokens IH]; intros tokenMap Hnd; simpl.
  - by rewrite app_nil_r.
  - assert (identityKey token ∉ Map.keys tokenMap) as Hfresh.
    { apply NoDup_app in Hnd as (_ & Hdisj & _). intros Hin.
      apply (Hdisj _ Hin). apply list_elem_of_here. }
    unfold mergeStep at 2. rewrite (proj2 (get_None _ _) Hfresh).
    rewrite keys_set_absent by done. rewrite IH.
    + by rewrite <- app_assoc.
    + unfold Map.keys in *. rewrite fmap_app, <- app_assoc. done.
Qed.

(** X14.  A batch in which no identity key occurs twice is returned as it is,
    record for record and in the same order; so merging a merged batch again
    changes nothing. *)
Theorem mergeTokens_distinct (tokens : list Token) :
  (NoDup (identityKey <$> tokens) → mergeTokens tokens = tokens)
  ∧ mergeTokens (mergeTokens tokens) = mergeTokens tokens.
Proof.
  assert (∀ l, NoDup (identityKey <$> l) → mergeTokens l = l) as Hid.
  { intros l Hnd. unfold mergeTokens. rewrite foldl_mergeStep_distinct by done.
    unfold Map.empty, Map.values. simpl. rewrite <- list_fmap_compose.
    by rewrite list_fmap_id. }
  split; [apply Hid|]. apply Hid. unfold mergeTokens.
  destruct (foldl_mergeStep tokens Map.empty) as [Hwk _].
  { split; [apply NoDup_nil_2 | intros k t H; by apply elem_of_nil in H]. }
  rewrite wellKeyed_values by done. apply Hwk.
Qed.

Lemma elem_of_set_NoDup {A} k (v : A) k' v' (m : Map.t A) :
  NoDup (Map.keys m) → (k', v') ∈ Map.set k v m →
  (k' = k ∧ v' = v) ∨ (k' ≠ k ∧ (k', v') ∈ m).
Proof.
  induction m as [|[k0 v0] m IH]; simpl; intros Hnd Hin.
  - apply list_elem_of_singleton in Hin as [= -> ->]. by left.
  - apply NoDup_cons in Hnd as [Hk0 Hnd].
    destruct (String.eqb_spec k k0) as [->|Hne].
    + apply elem_of_cons in Hin as [[= -> ->] | Hin]; [by left|].
      right. split; [|by apply list_elem_of_further].
      intros ->. apply Hk0. apply (list_elem_of_fmap_2 fst) in Hin. done.
    + apply elem_of_cons in Hin as [[= -> ->] | Hin].
      * right. split; [done | apply list_elem_of_here].
      * destruct (IH Hnd Hin) as [? | [? ?]]; [by left|].
        right. split; [done | by apply list_elem_of_further].
Qed.

(** A metric that [mergeTokenData] resolves by taking the larger value. *)
Definition mergedByMax (metric : Token → number) : Prop :=
  ∀ a b, is_max (metric (primary a b)) (metric (secondary a b)) (metric (mergeTokenData a b)).

Lemma volume_mergedByMax : mergedByMax volume_sol.
Proof. intros a b. apply Math_max_is_max. Qed.

Lemma liquidity_mergedByMax : mergedByMax liquidity_sol.
Proof. intros a b. apply Math_max_is_max. Qed.

Lemma transaction_count_mergedByMax : mergedByMax transaction_count.
Proof. intros a b. apply Math_max_is_max. Qed.

Lemma mergedByMax_both metric a b :
  mergedByMax metric →
  (metric a <= metric (mergeTokenData a b))%Q ∧ (metric b <= metric (mergeTokenData a b))%Q
  ∧ (metric (mergeTokenData a b) = metric a ∨ metric (mergeTokenData a b) = metric b).
Proof.
  intros Hmax. destruct (Hmax a b) as (Hp & Hs & Heq).
  destruct (primary_cases a b) as [(_ & Ep & Es) | (_ & Ep & Es)]; rewrite Ep, Es in *;
    split_and!; try done. destruct Heq; auto.
Qed.

(** The entry of every key carries the largest value of the metric among
    the records seen so far under that key. *)
Definition largestSoFar (metric : Token → number) (seen : list Token) tokenMap : Prop :=
  wellKeyed tokenMap
  ∧ (∀ t, t ∈ seen → identityKey t ∈ Map.keys tokenMap)
  ∧ ∀ k r, (k, r) ∈ tokenMap →
      (∀ t, t ∈ seen → identityKey t = k → (metric t <= metric r)%Q)
      ∧ ∃ t, t ∈ seen ∧ identityKey t = k ∧ metric r = metric t.

Lemma mergeStep_largest metric seen tokenMap token :
  mergedByMax metric →
  largestSoFar metric seen tokenMap →
  largestSoFar metric (seen ++ [token]) (mergeStep tokenMap token).
Proof.
  intros Hmax (Hwk & Hseen & Hlargest). split_and!.
  - by apply mergeStep_wellKeyed.
  - intros t Ht. rewrite mergeStep_keys. apply elem_of_app in Ht as [Ht|Ht].
    + case_decide; [|apply elem_of_app; left]; by apply Hseen.
    + apply list_elem_of_singleton in Ht as ->.
      case_decide; [done|]. apply elem_of_app. right. apply list_elem_of_here.
  - intros k r Hin. unfold mergeStep in Hin.
    destruct (Map.get (identityKey token) tokenMap) as [existing|] eqn:Hget.
    + apply elem_of_set_NoDup in Hin as [[-> ->] | [Hne Hin]]; [| |apply Hwk].
      * apply get_Some in Hget.
        destruct (Hlargest _ _ Hget) as (Hle & t0 & Ht0 & Hk0 & Heq0).
        destruct (mergedByMax_both metric existing token Hmax) as (He & Ht & Hcases).
        split.
        -- intros t Hin' Hk. apply elem_of_app in Hin' as [Hin'|Hin'].
           ++ eapply Qle_trans; [by apply Hle | done].
           ++ by apply list_elem_of_singleton in Hin' as ->.
        -- destruct Hcases as [Heq|Heq].
           ++ exists t0. split_and!; [apply elem_of_app; by left | done | congruence].
           ++ exists token. split_and!; [apply elem_of_app; right; apply list_elem_of_here
                                         | done | done].
      * destruct (Hlargest _ _ Hin) as (Hle & t0 & Ht0 & Hk0 & Heq0). split.
        -- intros t Hin' Hk. apply elem_of_app in Hin' as [Hin'|Hin']; [by apply Hle|].
           apply list_elem_of_singleton in Hin' as ->. done.
        -- exists t0. split_and!; [apply elem_of_app; by left | done | done].
    + apply get_None in Hget. rewrite keys_set_absent in Hin by done.
      apply elem_of_app in Hin as [Hin|Hin].
      * destruct (Hlargest _ _ Hin) as (Hle & t0 & Ht0 & Hk0 & Heq0). split.
        -- intros t Hin' Hk. apply elem_of_app in Hin' as [Hin'|Hin']; [by apply Hle|].
           apply list_elem_of_singleton in Hin' as ->. subst k.
           destruct Hget. apply (list_elem_of_fmap_2 fst) in Hin. by rewrite Hk.
        -- exists t0. split_and!; [apply elem_of_app; by left | done | done].
      * apply list_elem_of_singleton in Hin as [= -> ->]. split.
        -- intros t Hin' Hk. apply elem_of_app in Hin' as [Hin'|Hin'].
           ++ destruct Hget. rewrite <- Hk. by apply Hseen.
           ++ apply list_elem_of_singleton in Hin' as ->. apply Qle_refl.
        -- exists token. split_and!; [apply elem_of_app; right; apply list_elem_of_here
                                      | done | done].
Qed.

Lemma foldl_mergeStep_largest metric tokens seen tokenMap :
  mergedByMax metric →
  largestSoFar metric seen tokenMap →
  largestSoFar metric (seen ++ tokens) (foldl mergeStep tokenMap tokens).
Proof.
  intros Hmax. revert seen tokenMap.
  induction tokens as [|token tokens IH]; intros seen tokenMap Hinv; simpl.
  - by rewrite app_nil_r.
  - rewrite cons_middle, app_assoc. apply IH. by apply mergeStep_largest.
Qed.

(** [r] carries the largest value of [metric] among the records of its
    identity key in [tokens], and that value is the value of one of them. *)
Definition largestOf (metric : Token → number) (tokens : list Token) (r : Token) : Prop :=
  (∀ t, t ∈ tokens → identityKey t = identityKey r → (metric t <= metric r)%Q)
  ∧ ∃ t, t ∈ tokens ∧ identityKey t = identityKey r ∧ metric r = metric t.

Lemma mergeTokens_largestOf metric (tokens : list Token) (r : Token) :
  mergedByMax metric → r ∈ mergeTokens tokens → largestOf metric tokens r.
Proof.
  intros Hmax Hr.
  destruct (foldl_mergeStep_largest metric tokens [] Map.empty Hmax) as (Hwk & _ & Hlargest).
  { split_and!.
    - split; [apply NoDup_nil_2 | intros k t H; by apply elem_of_nil in H].
    - intros t H. by apply elem_of_nil in H.
    - intros k t H. by apply elem_of_nil in H. }
  simpl in Hlargest. unfold mergeTokens, Map.values in Hr.
  apply list_elem_of_fmap in Hr as ([k r'] & -> & Hin). simpl.
  assert (identityKey r' = k) as <- by (by apply Hwk).
  by apply Hlargest.
Qed.

(** X15.  Every merged record carries the largest volume, the largest liquidity
    and the largest transaction count found in the batch among the records
    of its identity key, and each of the three is the value of one of those
    records. *)
Theorem mergeTokens_largest (tokens : list Token) (r : Token) :
  r ∈ mergeTokens tokens →
  largestOf volume_sol tokens r
  ∧ largestOf liquidity_sol tokens r
  ∧ largestOf transaction_count tokens r.
Proof.
  intros Hr. split_and!; (apply mergeTokens_largestOf; [|done]).
  - apply volume_mergedByMax.
  - apply liquidity_mergedByMax.
  - apply transaction_count_mergedByMax.
Qed.

(** X16.  Merging never loses completeness: the merged record scores at least
    as high as either of the two records it is made of. *)
Theorem mergeTokenData_completeness (a b : Token) :
  (calculateDataCompleteness a ≤ calculateDataCompleteness (mergeTokenData a b))%nat
  ∧ (calculateDataCompleteness b ≤ calculateDataCompleteness (mergeTokenData a b))%nat.
Proof.
  assert (calculateDataCompleteness (primary a b)
          ≤ calculateDataCompleteness (mergeTokenData a b))%nat as Hp.
  { unfold calculateDataCompleteness at 1 2. simpl.
    assert (∀ x y, gt x 0 = true → gt (Math_max x y) 0 = true) as Hmax.
    { intros x y Hx. apply gt_spec. apply gt_spec in Hx.
      destruct (Math_max_is_max x y) as (Hle & _ & _). lra. }
    assert (∀ x y, gt x 0 = true → gt (or_num x y) 0 = true) as Hor.
    { intros x y Hx. unfold or_num.
      assert (truthy x = true) as -> by (apply truthy_spec; apply gt_spec in Hx; lra).
      done. }
    repeat match goal with
           | |- context [gt (?f (primary a b)) 0] =>
               let H := fresh "H" in
               destruct (gt (f (primary a b)) 0) eqn:H;
               [first [rewrite (Hmax _ _ H) | rewrite (Hor _ _ H)]|]
           end;
      repeat case_match; lia. }
  destruct (primary_cases a b) as [(Hle & Ep & _) | (Hlt & Ep & _)]; rewrite Ep in Hp; lia.
Qed.

End MergeMore.

(** ** The aggregate: distinct and bounded *)

Section AggregateMore.

Context {E : Type}.

Lemma slice_sublist {A} (l : list A) (start finish : Z) : slice l start finish `sublist_of` l.
Proof.
  unfold slice. etrans; [apply sublist_take | apply sublist_drop].
Qed.

(** What [limitTokens] returns is taken from its input: no record is
    invented or repeated, whatever the cap. *)
Lemma limitTokens_submseteq (cap : Z) (tokens : list Token) :
  limitTokens cap tokens ⊆+ tokens.
Proof.
  unfold limitTokens. case_match; [done|].
  etrans; [apply sublist_submseteq, slice_sublist|].
  apply Permutation_submseteq, sort_perm.
Qed.

Lemma limitTokens_keys (cap : Z) (tokens : list Token) :
  NoDup (identityKey <$> tokens) → NoDup (identityKey <$> limitTokens cap tokens).
Proof.
  intros Hnd. unfold limitTokens. case_match; [done|].
  apply (sublist_NoDup _ (identityKey <$> sort byVolumeDesc tokens)).
  - by rewrite (sort_perm byVolumeDesc tokens).
  - apply fmap_sublist, slice_sublist.
Qed.

Lemma limitTokens_length (cap : Z) (tokens : list Token) :
  0 ≤ cap → Z.of_nat (length (limitTokens cap tokens)) ≤ cap.
Proof.
  intros Hcap. unfold limitTokens. destruct (Z.leb_spec (Z.of_nat (length tokens)) cap); [done|].
  assert (length (sort byVolumeDesc tokens) = length tokens) as Hlen
    by (by rewrite (sort_perm byVolumeDesc tokens)).
  rewrite slice_prefix by lia. rewrite length_take. lia.
Qed.

(** X17.  What [aggregateTokens] computes holds no identity key twice, is made of
    merged records only, and holds at most [cap] records when the cap is
    not negative; limiting it again changes nothing. *)
Theorem fetchAndMerge_distinct_bounded (cap : Z)
    (srcs : list (string * Outcome E (list Token))) :
  ∃ tokens,
    fetchAndMerge cap srcs = Resolved tokens
    ∧ NoDup (identityKey <$> tokens)
    ∧ tokens ⊆+ mergeTokens (successfulBatches (snd <$> srcs))
    ∧ (0 ≤ cap → Z.of_nat (length tokens) ≤ cap ∧ limitTokens cap tokens = tokens).
Proof.
  unfold fetchAndMerge.
  destruct (flatten_settled (snd <$> srcs)) as (results & Hall & _ & Hflat).
  rewrite Hall. cbn [bind]. rewrite Hflat.
  set (batches := successfulBatches (snd <$> srcs)).
  assert (NoDup (identityKey <$> mergeTokens batches)) as Hnd.
  { unfold mergeTokens. destruct (foldl_mergeStep batches Map.empty) as [Hwk _].
    { split; [apply NoDup_nil_2 | intros k t H; by apply elem_of_nil in H]. }
    rewrite wellKeyed_values by done. apply Hwk. }
  cbv zeta. destruct (length batches =? 0)%nat eqn:Hempty.
  - exists []. split; [done|]. split; [apply NoDup_nil_2|]. split; [apply submseteq_nil_l|].
    intros Hcap. split; [simpl; lia|]. unfold limitTokens.
    destruct (Z.leb_spec (Z.of_nat (length (@nil Token))) cap) as [_|Hlt]; [done|].
    simpl in Hlt. lia.
  - eexists. split; [done|]. split_and!.
    + by apply limitTokens_keys.
    + apply limitTokens_submseteq.
    + intros Hcap. assert (Hlen := limitTokens_length cap (mergeTokens batches) Hcap).
      split; [done|]. unfold limitTokens at 1.
      destruct (Z.leb_spec (Z.of_nat (length (limitTokens cap (mergeTokens batches)))) cap);
        [done | lia].
Qed.

End AggregateMore.

(** ** The view pipeline: how filters and sorts compose *)

Section ViewMore.

(** The test a record has to pass, all four criteria together. *)
Definition passes (options : FilterOptions) (token : Token) : bool :=
  (if truthy_str (timePeriod options)
   then defined token (changeField (default "" (timePeriod options))) else true)
  && (if minVolume options is Some m then ge (volume_sol token) m else true)
  && (if minLiquidity options is Some m then ge (liquidity_sol token) m else true)
  && (if truthy_str (filter_protocol options)
      then includes (toLowerCase (protocol token))
                    (toLowerCase (default "" (filter_protocol options)))
      else true).

Lemma filter_filter_and {A} (p q : A → bool) (l : list A) :
  List.filter q (List.filter p l) = List.filter (λ x, p x && q x) l.
Proof.
  induction l as [|x l IH]; [done|]. simpl.
  destruct (p x) eqn:Hp; simpl; [|done]. destruct (q x); by rewrite IH.
Qed.

Lemma filter_all {A} (l : list A) : List.filter (λ _, true) l = l.
Proof. induction l as [|x l IH]; [done|]. simpl. by rewrite IH. Qed.

Lemma filterTokens_passes tokens options :
  filterTokens tokens options = List.filter (passes options) tokens.
Proof.
  unfold filterTokens, passes. destruct options as [period minV minL proto]. simpl.
  destruct (truthy_str period), minV as [mv|], minL as [ml|], (truthy_str proto);
    rewrite ?filter_filter_and;
    first [ apply List.filter_ext; intros t; simpl; by rewrite ?andb_true_r, ?andb_assoc
          | rewrite <- (filter_all tokens) at 1; apply List.filter_ext; by intros t ].
Qed.

Lemma filter_sublist_bool {A} (p : A → bool) (l : list A) : List.filter p l `sublist_of` l.
Proof.
  induction l as [|x l IH]; [done|]. simpl. destruct (p x); by constructor.
Qed.

(** X18.  [filterTokens] keeps exactly the records that pass all the criteria
    given, in the order they stand in; filtering twice with the same
    criteria is filtering once, and two filters applied one after the other
    give the same list in either order. *)
Theorem filterTokens_composes tokens options options' :
  (∀ token, token ∈ filterTokens tokens options
            ↔ token ∈ tokens ∧ passes options token = true)
  ∧ filterTokens tokens options `sublist_of` tokens
  ∧ filterTokens (filterTokens tokens options) options = filterTokens tokens options
  ∧ filterTokens (filterTokens tokens options) options'
    = filterTokens (filterTokens tokens options') options.
Proof.
  rewrite !filterTokens_passes. split_and!.
  - intros token. by rewrite !list_elem_of_In, filter_In.
  - apply filter_sublist_bool.
  - rewrite filter_filter_and. apply List.filter_ext. intros t. by destruct (passes options t).
  - rewrite !filter_filter_and. apply List.filter_ext. intros t. apply andb_comm.
Qed.

Lemma sort_insert_front {A} (cmp : A → A → number) x l :
  HdRel (notAfter cmp) x l → sort_insert cmp x l = x :: l.
Proof.
  intros [|y l' Hxy]; [done|].
  destruct (sort_insert_cases cmp x y l') as [[_ ->] | [Hn _]]; done.
Qed.

Lemma sort_sorted_id {A} (cmp : A → A → number) l :
  Sorted (notAfter cmp) l → sort cmp l = l.
Proof.
  induction 1 as [|x l Hl IH Hhd]; [done|]. simpl.
  change (foldr (sort_insert cmp) [] l) with (sort cmp l). rewrite IH.
  by apply sort_insert_front.
Qed.

Lemma comparator_total options a b :
  notAfter (comparator options) a b ∨ notAfter (comparator options) b a.
Proof.
  unfold notAfter, comparator. rewrite !sortValues_sortKey.
  destruct (sortKey (field options)) as [key|]; simpl; [|left; lra].
  destruct (String.eqb (order options) "asc");
    destruct (Qlt_le_dec (key a) (key b)); (left; lra) || (right; lra).
Qed.

(** X19.  Sorting a sorted list changes nothing: [sortTokens] applied twice with
    the same options gives what it gives applied once, and it never changes
    the number of records. *)
Theorem sortTokens_idempotent tokens options :
  sortTokens (sortTokens tokens options) options = sortTokens tokens options
  ∧ length (sortTokens tokens options) = length tokens.
Proof.
  unfold sortTokens. split.
  - apply sort_sorted_id, sort_sorted. apply comparator_total.
  - by rewrite (sort_perm (comparator options) tokens).
Qed.

End ViewMore.

(** ** The view pipeline: following the cursors *)

Section PaginateWalk.





End PaginateWalk.

(** ** The cache: a second call of [getOrSet] *)

Section GetOrSetTwice.

Import CacheService.

Context {V E : Type}.
Implicit Types (st : State V) (key : string).

Lemma get_defaultTTL reply now key st :
  defaultTTL (get reply now key st).2 = defaultTTL st.
Proof.
  unfold get, getSettle, getFromMemory.
  repeat case_match; simplify_eq; done.
Qed.

Lemma get_set_live replySet replyGet now now' key (v : V) ttl st :
  0 ≤ cacheTTL ttl st → now' ≤ now + cacheTTL ttl st * 1000 → noRedisHit replyGet →
  (get replyGet now' key (set replySet now key v ttl st)).1 = Some v.
Proof.
  intros Httl Hlive Hno. rewrite get_memory, getFromMemory_value, set_memory by done.
  rewrite setInMemory_lookup by done. simpl.
  destruct (Z.ltb_spec (now + cacheTTL ttl st * 1000) now'); [lia | done].
Qed.

(** X21.  A value computed by one call is served to the next call on the same key
    while the entry lives: the second call returns it and does not call its
    compute function at all, whatever that function would have given. *)
Theorem getOrSet_then_cached replyGet replySet replyGet' replySet'
    (data : V) (fetch' : Outcome E V) now now' later later' key ttl st :
  (get replyGet now key st).1 = None →
  noRedisHit replyGet' →
  0 ≤ cacheTTL ttl st →
  later ≤ now' + cacheTTL ttl st * 1000 →
  let first := getOrSet replyGet (Resolved data : Outcome E V) replySet now now' key ttl st in
  let second := getOrSet replyGet' fetch' replySet' later later' key ttl first.1.2 in
  first.1.1 = Resolved data ∧ first.2 = 1%nat
  ∧ second.1.1 = Resolved data ∧ second.2 = 0%nat.
Proof.
  intros Hmiss Hno Httl Hlive. unfold getOrSet.
  assert (cacheTTL ttl (get replyGet now key st).2 = cacheTTL ttl st) as Hsame.
  { unfold cacheTTL. by rewrite get_defaultTTL. }
  destruct (get replyGet now key st) as [cached st1]. simpl in Hmiss, Hsame. subst cached.
  simpl.
  assert ((get replyGet' later key (set replySet now' key data ttl st1)).1 = Some data) as Hhit.
  { apply get_set_live; [by rewrite Hsame | by rewrite Hsame | done]. }
  destruct (get replyGet' later key (set replySet now' key data ttl st1)) as [cached st2].
  simpl in Hhit. subst cached. done.
Qed.

End GetOrSetTwice.

(** ** The sources: what [getPopularTokens] hands to the aggregator *)

Section Sources.

Import DexClients.

Implicit Types (state : gset string * list Token) (token t : Token).

Lemma slice_from_start {A} (l : list A) (n : Z) :
  0 ≤ n → slice l 0 n = take (Z.to_nat n) l.
Proof.
  intros Hn. destruct (decide (n ≤ Z.of_nat (length l))) as [Hle|Hgt].
  - by apply slice_prefix.
  - unfold slice, relative_index. simpl. destruct (Z.ltb_spec n 0); [lia|].
    replace (Z.to_nat (0 `min` Z.of_nat (length l))) with 0%nat by lia.
    rewrite drop_0, !take_ge; [done | lia | lia].
Qed.

Lemma mergeTokens_unchanged (tokens : list Token) :
  NoDup (identityKey <$> tokens) → mergeTokens tokens = tokens.
Proof.
  intros Hnd. unfold mergeTokens. rewrite foldl_mergeStep_distinct by done.
  unfold Map.empty, Map.values. simpl. rewrite <- list_fmap_compose.
  by rewrite list_fmap_id.
Qed.

(** The loop keeps [seenAddresses] the set of the keys of [allTokens], and
    those keys distinct. *)
Definition gathered state : Prop :=
  NoDup (identityKey <$> state.2)
  ∧ state.1 = list_to_set (identityKey <$> state.2).

Lemma pushUnseen_gathered state token :
  gathered state → gathered (pushUnseen state token).
Proof.
  destruct state as [seen all]. intros [Hnd Hseen]. simpl in *. unfold pushUnseen.
  fold (identityKey token). case_decide as Hin; [done|]. split; simpl.
  - rewrite fmap_app. apply NoDup_app. split_and!; [done | | apply NoDup_singleton].
    intros k Hk Hk'. apply list_elem_of_singleton in Hk' as ->.
    apply Hin. rewrite Hseen. by apply elem_of_list_to_set.
  - rewrite fmap_app, list_to_set_app_L, Hseen. simpl. set_solver.
Qed.

Lemma pushUnseen_seen state token :
  identityKey token ∈ (pushUnseen state token).1.
Proof.
  destruct state as [seen all]. unfold pushUnseen. fold (identityKey token).
  case_decide; simpl; set_solver.
Qed.

Lemma pushUnseen_grows state token :
  state.1 ⊆ (pushUnseen state token).1
  ∧ ∀ t, t ∈ (pushUnseen state token).2 → t ∈ state.2 ∨ t = token.
Proof.
  destruct state as [seen all]. unfold pushUnseen. fold (identityKey token).
  case_decide; simpl; [split; [done | auto]|]. split; [set_solver|].
  intros t Ht. apply elem_of_app in Ht as [?|Ht]; [by left|].
  apply list_elem_of_singleton in Ht. by right.
Qed.

Lemma foldl_pushUnseen state (tokens : list Token) :
  gathered state →
  let state' := foldl pushUnseen state tokens in
  gathered state'
  ∧ state.1 ⊆ state'.1
  ∧ (∀ t, t ∈ tokens → identityKey t ∈ state'.1)
  ∧ (∀ t, t ∈ state'.2 → t ∈ state.2 ∨ t ∈ tokens).
Proof.
  revert state. induction tokens as [|token tokens IH]; intros state Hg; simpl.
  - split_and!; [done | done | intros t H; by apply elem_of_nil in H | auto].
  - destruct (IH (pushUnseen state token) (pushUnseen_gathered _ _ Hg))
      as (Hg' & Hsub & Hcov & Hfrom).
    destruct (pushUnseen_grows state token) as [Hsub0 Hfrom0].
    split_and!.
    + done.
    + set_solver.
    + intros t Ht. apply elem_of_cons in Ht as [->|Ht]; [|by apply Hcov].
      apply Hsub, pushUnseen_seen.
    + intros t Ht. destruct (Hfrom t Ht) as [Ht'|Ht'].
      * destruct (Hfrom0 t Ht') as [? | ->]; [by left | right; apply list_elem_of_here].
      * right. by apply list_elem_of_further.
Qed.

Lemma gather_gathered perQuery state (found : list (list Token)) :
  gathered state →
  let state' := gather perQuery state found in
  gathered state'
  ∧ state.1 ⊆ state'.1
  ∧ (∀ tokens t, tokens ∈ found → t ∈ slice tokens 0 perQuery → identityKey t ∈ state'.1)
  ∧ (∀ t, t ∈ state'.2 →
       t ∈ state.2 ∨ ∃ tokens, tokens ∈ found ∧ t ∈ slice tokens 0 perQuery).
Proof.
  revert state. induction found as [|tokens found IH]; intros state Hg; simpl.
  - split_and!; [done | done | intros ? ? H; by apply elem_of_nil in H | auto].
  - destruct (foldl_pushUnseen state (slice tokens 0 perQuery) Hg)
      as (Hg1 & Hsub1 & Hcov1 & Hfrom1).
    destruct (IH _ Hg1) as (Hg' & Hsub & Hcov & Hfrom).
    split_and!.
    + done.
    + etrans; [exact Hsub1 | exact Hsub].
    + intros tokens' t Hin Ht. apply elem_of_cons in Hin as [->|Hin].
      * apply Hsub. by apply Hcov1.
      * by eapply Hcov.
    + intros t Ht. destruct (Hfrom t Ht) as [Ht'|(tokens' & Hin & Ht')].
      * destruct (Hfrom1 t Ht') as [?|?]; [by left|].
        right. exists tokens. split; [apply list_elem_of_here | done].
      * right. exists tokens'. split; [by apply list_elem_of_further | done].
Qed.

(** X22.  What the Jupiter client returns holds no address twice, whatever the
    letter case; every record of it was among the first [TOKENS_PER_QUERY]
    of some answer; it holds at most [JUPITER_MAX_TOKENS] records; when it
    holds fewer, every address seen in the answers is in it; and the merge
    engine, given that batch alone, leaves it as it is. *)
Theorem jupiterPopular_distinct (perQuery cap : Z) (found : list (list Token)) :
  let popular := jupiterPopular perQuery cap found in
  NoDup (identityKey <$> popular)
  ∧ (∀ t, t ∈ popular → ∃ tokens, tokens ∈ found ∧ t ∈ slice tokens 0 perQuery)
  ∧ (0 ≤ cap → Z.of_nat (length popular) ≤ cap)
  ∧ (∀ tokens t, Z.of_nat (length popular) < cap →
       tokens ∈ found → t ∈ slice tokens 0 perQuery →
       identityKey t ∈ identityKey <$> popular)
  ∧ mergeTokens popular = popular.
Proof.
  intros popular. subst popular. unfold jupiterPopular.
  destruct (gather_gathered perQuery (∅, []) found) as ((Hnd & Hseen) & _ & Hcov & Hfrom).
  { split; [apply NoDup_nil_2 | done]. }
  set (all := (gather perQuery (∅, []) found).2) in *.
  assert (NoDup (identityKey <$> slice all 0 cap)) as Hnd'.
  { apply (sublist_NoDup _ (identityKey <$> all)); [done|]. apply fmap_sublist, slice_sublist. }
  split_and!.
  - done.
  - intros t Ht. destruct (Hfrom t) as [Hnil|?]; [|by apply elem_of_nil in Hnil|done].
    eapply elem_of_sublist; [done | apply slice_sublist].
  - intros Hcap. rewrite slice_from_start, length_take by done. lia.
  - intros tokens t Hshort Hin Ht.
    assert (0 ≤ cap) as Hcap by lia.
    rewrite slice_from_start, length_take in Hshort by done.
    rewrite slice_from_start, take_ge by lia.
    specialize (Hcov tokens t Hin Ht). rewrite Hseen in Hcov.
    by apply elem_of_list_to_set in Hcov.
  - by apply mergeTokens_unchanged.
Qed.

Lemma foldl_pushUnseen_prefix (init : list Token) state (tokens : list Token) :
  foldl pushUnseen (state.1, init ++ state.2) tokens
  = ((foldl pushUnseen state tokens).1, init ++ (foldl pushUnseen state tokens).2).
Proof.
  revert state. induction tokens as [|token tokens IH]; intros [seen all]; simpl; [done|].
  case_decide.
  - apply (IH (seen, all)).
  - rewrite <- app_assoc. apply (IH (_, _)).
Qed.

Lemma gather_prefix perQuery (init : list Token) state (found : list (list Token)) :
  gather perQuery (state.1, init ++ state.2) found
  = ((gather perQuery state found).1, init ++ (gather perQuery state found).2).
Proof.
  revert state. induction found as [|tokens found IH]; intros [seen all]; simpl; [done|].
  rewrite (foldl_pushUnseen_prefix init (seen, all)).
  apply IH.
Qed.

(** X23.  The DexScreener client puts the trending records first, as they are,
    and then the records found by the searches, which are kept apart from
    one another only: the result is the trending records followed by what
    the searches alone would give, cut at [MAX_TOTAL_TOKENS].  A record of
    the trending answer that a search finds again is in the result twice;
    the merge engine then makes one record of the two. *)
Theorem dexscreenerPopular_trending (perQuery cap : Z) (found : list (list Token)) :
  dexscreenerPopular perQuery cap None found = jupiterPopular perQuery cap found
  ∧ (∀ pairs,
       dexscreenerPopular perQuery cap (Some pairs) found
       = slice (slice pairs 0 perQuery ++ (gather perQuery (∅, []) found).2) 0 cap)
  ∧ (∀ t, 1 ≤ perQuery → 2 ≤ cap →
       dexscreenerPopular perQuery cap (Some [t]) [[t]] = [t; t]
       ∧ mergeTokens [t; t] = [mergeTokenData t t]).
Proof.
  split_and!.
  - done.
  - intros pairs. unfold dexscreenerPopular.
    assert (Hpre := gather_prefix perQuery (slice pairs 0 perQuery) (∅, []) found).
    simpl in Hpre. rewrite app_nil_r in Hpre. by rewrite Hpre.
  - intros t Hper Hcap. split.
    + unfold dexscreenerPopular, gather. cbn [foldl].
      rewrite !(slice_from_start [t]) by lia.
      replace (Z.to_nat perQuery) with (S (Z.to_nat (perQuery - 1))) by lia.
      cbn [take foldl pushUnseen]. rewrite take_nil. cbn [foldl app snd].
      rewrite decide_False by set_solver. cbn [foldl app snd].
      rewrite slice_from_start by lia.
      replace (Z.to_nat cap) with (S (S (Z.to_nat (cap - 2)))) by lia.
      cbn [take]. by rewrite take_nil.
    + unfold mergeTokens, mergeStep. simpl. by repeat (rewrite String.eqb_refl; simpl).
Qed.

(** X24.  A record made by [enrichTokenWithPrice] scores 0 for
    completeness, so that merged into a record that is already there it is
    never the primary one: the name, the ticker, the protocol and the price
    changes stay those of the record already there, and no metric of that
    record is lost.  The price is Jupiter's when both time stamps are set
    and not 0 and that of the record already there is not the later one;
    in every other case (that time stamp later, absent or 0, or Jupiter's
    0) the price stays the one already there. *)
Theorem enrichTokenWithPrice_secondary address name symbol price now
    (jupiter existing : Token) :
  enrichTokenWithPrice address name symbol price now = Some jupiter →
  let merged := mergeTokenData existing jupiter in
  calculateDataCompleteness jupiter = 0%nat
  ∧ token_address merged = token_address existing
  ∧ token_name merged = token_name existing
  ∧ token_ticker merged = token_ticker existing
  ∧ protocol merged = protocol existing
  ∧ price_1hr_change merged = price_1hr_change existing
  ∧ price_24hr_change merged = price_24hr_change existing
  ∧ (market_cap_sol merged == market_cap_sol existing)%Q
  ∧ ((0 <= volume_sol existing)%Q → (volume_sol merged == volume_sol existing)%Q)
  ∧ ((0 <= liquidity_sol existing)%Q → (liquidity_sol merged == liquidity_sol existing)%Q)
  ∧ (∀ updated, last_updated existing = Some updated →
       ¬ (updated == 0)%Q → ¬ (now == 0)%Q →
       ((updated <= now)%Q → price_sol merged = price_sol jupiter)
       ∧ ((now < updated)%Q → price_sol merged = price_sol existing))
  ∧ (last_updated existing = None → price_sol merged = price_sol existing)
  ∧ (∀ updated, last_updated existing = Some updated → (updated == 0)%Q →
       price_sol merged = price_sol existing)
  ∧ ((now == 0)%Q → price_sol merged = price_sol existing).
Proof.
  intros Henrich merged. unfold enrichTokenWithPrice in Henrich.
  destruct price as [p|]; [|done]. destruct (truthy p) eqn:Hp; [|done].
  injection Henrich as <-.
  assert (∀ x, (0 <= x)%Q → (Math_max x 0 == x)%Q) as Hmax.
  { intros x Hx. destruct (Math_max_is_max x 0) as (H1 & H2 & [-> | Heq]); [done|].
    rewrite Heq in *. lra. }
  subst merged. unfold mergeTokenData, primary, secondary. simpl.
  split_and!; try done.
  - unfold or_num. destruct (truthy (market_cap_sol existing)) eqn:Hcap; [done|].
    apply truthy_false in Hcap. by rewrite Hcap.
  - apply Hmax.
  - apply Hmax.
  - intros updated Hup Hu Hn. rewrite Hup. simpl.
    assert (truthy updated = true) as -> by (by apply truthy_spec).
    assert (truthy now = true) as -> by (by apply truthy_spec).
    simpl. split; intros Hcmp.
    + assert (gt updated now = false) as ->; [|done].
      apply not_true_iff_false. rewrite gt_spec. lra.
    + assert (gt updated now = true) as ->; [|done]. by apply gt_spec.
  - by intros ->.
  - intros updated Hup Hzero. rewrite Hup. simpl.
    by assert (truthy updated = false) as -> by (by apply truthy_false).
  - intros Hzero.
    assert (truthy now = false) as -> by (by apply truthy_false).
    by rewrite andb_false_r.
Qed.

End Sources.

(** ** The view pipeline: a negative limit *)

Section PaginateNegative.

(** X25.  A negative limit is not refused: [slice] reads the negative end index
    from the end of the list, so the page holds every record but the last
    [-limit], however many that is; the next cursor is the negative limit
    itself, which is read back as offset 0, so that following it gives the
    same page again. *)
Theorem paginateTokens_negative_limit (records : list Token) (n : Z) :
  n < 0 →
  let page := paginateTokens records (mkPaginationOptions (Some n) None) in
  tokens page = take (length records - Z.to_nat (- n)) records
  ∧ next_cursor page = Some (toString n)
  ∧ paginateTokens records (mkPaginationOptions (Some n) (next_cursor page)) = page.
Proof.
  intros Hn page.
  assert (offsetOf (Some (toString n)) = 0) as Hback.
  { unfold offsetOf. simpl. rewrite parseInt_toString. lia. }
  assert (limitOrDefault (mkPaginationOptions (Some n) None) = n) as Hlimit.
  { unfold limitOrDefault. simpl. destruct (Z.eqb_spec n 0); [lia | done]. }
  assert (next_cursor page = Some (toString n)) as Hnext.
  { subst page. unfold paginateTokens. rewrite startIndexOf_offsetOf, Hlimit.
    cbn [next_cursor cursor offsetOf mbind option_bind].
    destruct (Z.ltb_spec (0 + n) (Z.of_nat (length records))); [done | lia]. }
  split_and!.
  - subst page. unfold paginateTokens. rewrite startIndexOf_offsetOf, Hlimit.
    cbn [tokens cursor offsetOf mbind option_bind]. unfold slice, relative_index.
    destruct (Z.ltb_spec (0 + n) 0); [|lia]. simpl.
    replace (Z.to_nat (0 `min` Z.of_nat (length records))) with 0%nat by lia.
    rewrite drop_0. f_equal. lia.
  - done.
  - rewrite Hnext. subst page. unfold paginateTokens.
    rewrite !startIndexOf_offsetOf. cbn [cursor]. rewrite Hback.
    by cbn [offsetOf mbind option_bind].
Qed.

End PaginateNegative.

(** ** The routes: search and lookup by address *)

Section Routes.

Import TokenRoutes.

Lemma find_key_None (k : string) (tokens : list Token) :
  List.find (λ t, String.eqb (identityKey t) k) tokens = None
  ↔ k ∉ identityKey <$> tokens.
Proof.
  induction tokens as [|token tokens IH]; simpl.
  - split; [intros _; apply not_elem_of_nil | done].
  - rewrite not_elem_of_cons. destruct (String.eqb_spec (identityKey token) k) as [Heq|Hne].
    + split; [done | by intros [? _]].
    + rewrite IH. split; [by intros ? | by intros [_ ?]].
Qed.

Lemma find_key_Some (k : string) (tokens : list Token) (token : Token) :
  NoDup (identityKey <$> tokens) →
  List.find (λ t, String.eqb (identityKey t) k) tokens = Some token
  ↔ token ∈ tokens ∧ identityKey token = k.
Proof.
  induction tokens as [|first tokens IH]; simpl; intros Hnd.
  - split; [done | intros [H _]; by apply elem_of_nil in H].
  - apply NoDup_cons in Hnd as [Hfresh Hnd].
    destruct (String.eqb_spec (identityKey first) k) as [Heq|Hne].
    + split.
      * intros [= <-]. split; [apply list_elem_of_here | done].
      * intros [Hin Hk]. apply elem_of_cons in Hin as [->|Hin]; [done|].
        destruct Hfresh. rewrite Heq, <- Hk. by apply list_elem_of_fmap_2.
    + rewrite (IH Hnd). split.
      * intros [Hin Hk]. split; [by apply list_elem_of_further | done].
      * intros [Hin Hk]. apply elem_of_cons in Hin as [->|Hin]; [done | done].
Qed.

(** X26.  [GET /:address] on an aggregate, which holds no address twice: the
    answer is the record of that address, whatever the letter case of the
    request and of the record, and 404 exactly when no record has it. *)
Theorem byAddress_finds (address : string) (records : list Token) :
  NoDup (identityKey <$> records) →
  (∀ token, byAddress address records = Ok token
            ↔ token ∈ records ∧ identityKey token = toLowerCase address)
  ∧ (byAddress address records = Status 404
     ↔ toLowerCase address ∉ identityKey <$> records).
Proof.
  intros Hnd. unfold byAddress.
  change (λ t : Token, String.eqb (toLowerCase (token_address t)) (toLowerCase address))
    with (λ t : Token, String.eqb (identityKey t) (toLowerCase address)).
  split.
  - intros token. rewrite <- (find_key_Some _ _ _ Hnd).
    destruct (List.find _ records); split; congruence.
  - rewrite <- find_key_None. destruct (List.find _ records); split; congruence.
Qed.

Lemma filter_length_le {A} (p : A → bool) (l : list A) :
  (length (List.filter p l) ≤ length l)%nat.
Proof. induction l as [|x l IH]; simpl; [done|]. destruct (p x); simpl; lia. Qed.

(** X27.  [GET /search]: a missing or empty [q] is answered 400 and nothing
    else is; otherwise the answer holds the first 20 records that match, in
    the order of the aggregate, while [total] counts all that match. *)
Theorem search_page (q : option string) (records : list Token) :
  match search q records with
  | Status code => code = 400 ∧ (q = None ∨ q = Some "")
  | Ok body =>
      q = Some (search_query body) ∧ search_query body ≠ ""
      ∧ search_tokens body = take 20 (List.filter (matchesQuery (search_query body)) records)
      ∧ search_total body = length (List.filter (matchesQuery (search_query body)) records)
      ∧ length (search_tokens body) = (20 `min` search_total body)%nat
      ∧ (search_total body ≤ length records)%nat
      ∧ search_tokens body `sublist_of` records
      ∧ ∀ token, token ∈ search_tokens body →
          matchesQuery (search_query body) token = true
  end.
Proof.
  unfold search. destruct q as [[|c query]|]; simpl; [auto | | auto].
  set (matching := List.filter (matchesQuery (String c query)) records).
  assert (slice matching 0 20 = take 20 matching) as -> by (by apply slice_from_start).
  split_and!; try done.
  - by rewrite length_take.
  - apply filter_length_le.
  - etrans; [apply sublist_take | apply filter_sublist_bool].
  - intros token Hin. apply elem_of_take in Hin as (i & Hin & _).
    apply list_elem_of_lookup_2 in Hin. apply list_elem_of_In, filter_In in Hin. apply Hin.
Qed.

End Routes.

(** ** The WebSocket service: what is pushed to a client *)

Section Push.

Import WebSocketService.

Context {E : Type}.

(** X28.  What a client is sent is taken from the aggregate: no record is
    invented or sent twice over; every record sent passes the client's
    filter; without a pagination preference at most 25 records are sent,
    and without any preference they are the first 25 of the aggregate.  A
    failure of the aggregation is an empty update, not an error. *)
Theorem aggregateAndProcessTokens_view (aggregate : Outcome E (list Token))
    (preferences : option ClientPreferences) :
  let pushed := aggregateAndProcessTokens aggregate preferences in
  (∀ e, aggregate = Rejected e → pushed = [])
  ∧ ∀ aggregated, aggregate = Resolved aggregated →
      pushed ⊆+ aggregated
      ∧ (∀ options, preferences ≫= pref_filter = Some options →
           ∀ token, token ∈ pushed → passes options token = true)
      ∧ (preferences ≫= pref_pagination = None → (length pushed ≤ 25)%nat)
      ∧ (preferences = None → pushed = take 25 aggregated).
Proof.
  intros pushed. split; [by intros e ->|]. intros aggregated ->.
  subst pushed. unfold aggregateAndProcessTokens.
  destruct (Nat.eqb_spec (length aggregated) 0) as [Hnil|Hsome].
  { apply nil_length_inv in Hnil as ->.
    split_and!; [done | by intros ? ? ? H%elem_of_nil | simpl; lia | done]. }
  set (filtered := match preferences ≫= pref_filter with
                   | Some filter => filterTokens aggregated filter
                   | None => aggregated
                   end).
  set (sorted := match preferences ≫= pref_sort with
                 | Some sort => sortTokens filtered sort
                 | None => filtered
                 end).
  assert (filtered ⊆+ aggregated) as Hfiltered.
  { subst filtered. destruct (preferences ≫= pref_filter) as [options|]; [|done].
    rewrite filterTokens_passes. apply sublist_submseteq, filter_sublist_bool. }
  assert (sorted ⊆+ filtered) as Hsorted.
  { subst sorted. destruct (preferences ≫= pref_sort) as [options|]; [|done].
    unfold sortTokens. apply Permutation_submseteq, sort_perm. }
  assert (∀ options, tokens (paginateTokens sorted options) ⊆+ aggregated) as Hpushed.
  { intros options. unfold paginateTokens. cbn [tokens].
    etrans; [apply sublist_submseteq, slice_sublist|]. by etrans. }
  split_and!.
  - apply Hpushed.
  - intros options Hoptions token Hin.
    apply (elem_of_submseteq _ sorted) in Hin;
      [|unfold paginateTokens; cbn [tokens]; apply sublist_submseteq, slice_sublist].
    apply (elem_of_submseteq _ filtered) in Hin; [|done].
    subst filtered. rewrite Hoptions, filterTokens_passes in Hin.
    apply list_elem_of_In, filter_In in Hin. apply Hin.
  - intros ->. cbn [default]. unfold paginateTokens. cbn [tokens].
    change (startIndexOf (mkPaginationOptions (Some 25) None)) with 0.
    change (limitOrDefault (mkPaginationOptions (Some 25) None)) with 25.
    change (0 + 25) with 25.
    rewrite (slice_from_start sorted 25) by lia. rewrite length_take. lia.
  - intros ->. subst sorted filtered. cbn [mbind option_bind default].
    unfold paginateTokens. cbn [tokens].
    change (startIndexOf (mkPaginationOptions (Some 25) None)) with 0.
    change (limitOrDefault (mkPaginationOptions (Some 25) None)) with 25.
    change (0 + 25) with 25.
    by rewrite (slice_from_start aggregated 25) by lia.
Qed.

(** The client an event comes from. *)
Definition eventClient (event : SocketEvent) : string :=
  match event with
  | connection id | disconnect id | subscribe id _ | updatePreferences id _ => id
  end.

(** X29.  The events of other clients never touch what the registry holds for a
    client, and a client that is registered stays so until it disconnects;
    a [subscribe] without preferences keeps the preferences given before. *)
Theorem handle_registry (events : list SocketEvent)
    (connectedClients : gmap string ClientPreferences) (id : string) :
  (Forall (λ event, eventClient event ≠ id) events →
     foldl handle connectedClients events !! id = connectedClients !! id)
  ∧ (is_Some (connectedClients !! id) → disconnect id ∉ events →
     is_Some (foldl handle connectedClients events !! id))
  ∧ handle connectedClients (subscribe id None) = connectedClients.
Proof.
  split_and!; [| |done].
  - revert connectedClients. induction events as [|event events IH]; intros clients Hall;
      [done|].
    apply Forall_cons in Hall as [Hother Hall]. simpl. rewrite (IH _ Hall).
    destruct event as [i|i|i [p|]|i p]; simpl in *;
      by rewrite ?lookup_insert_ne, ?lookup_delete_ne.
  - revert connectedClients. induction events as [|event events IH]; intros clients Hin Hno;
      [done|].
    apply not_elem_of_cons in Hno as [Hne Hno]. simpl. apply IH; [|done].
    destruct event as [i|i|i [p|]|i p]; simpl.
    + destruct (decide (i = id)) as [->|?];
        [rewrite lookup_insert_eq; by eexists | by rewrite lookup_insert_ne].
    + rewrite lookup_delete_ne; [done | congruence].
    + destruct (decide (i = id)) as [->|?];
        [rewrite lookup_insert_eq; by eexists | by rewrite lookup_insert_ne].
    + done.
    + destruct (decide (i = id)) as [->|?];
        [rewrite lookup_insert_eq; by eexists | by rewrite lookup_insert_ne].
Qed.

End Push.

(** ** Instances of the further properties *)

Section MoreInstances.

Import Retry CacheService DexClients TokenRoutes WebSocketService.

(** An operation that fails twice with "503" and then succeeds. *)
Definition flaky : nat → Outcome Error nat :=
  λ k, if (k <? 2)%nat then Rejected (AxiosError (Some 503)) else Resolved 7%nat.

Definition alwaysUnavailable : nat → Outcome Error nat :=
  λ _, Rejected (AxiosError (Some 503)).

Definition halfJitter : nat → number := λ _, (1 # 2)%Q.

Definition noRetries : RetryConfig := mkRetryConfig (Some (-1)) None None None.

Lemma calculateBackoffDelay_bounds_witness :
  (0 <= 1 # 2)%Q ∧ (1 # 2 < 1)%Q ∧ (0 <= 1000)%Q
  ∧ (calculateBackoffDelay (1 # 2) 4 1000 10000 <= 10000)%Q
  ∧ (calculateBackoffDelay (1 # 2) 1 1000 10000 <= (13 # 10) * (1000 * inject_Z 2))%Q.
Proof.
  assert (0 <= 1 # 2)%Q as H0 by lra.
  assert (1 # 2 < 1)%Q as H1 by lra.
  assert (0 <= 1000)%Q as Hb by lra.
  split; [exact H0|]. split; [exact H1|]. split; [exact Hb|]. split.
  - exact (proj1 (calculateBackoffDelay_bounds (1 # 2) 4 1000 10000 H0 H1 Hb)).
  - exact (proj1 (proj2 (calculateBackoffDelay_bounds (1 # 2) 1 1000 10000 H0 H1 Hb))).
Defined.

Lemma retryWithBackoff_budget_witness :
  0 ≤ maxRetries_ emptyConfig
  ∧ (1 ≤ invocations (retryWithBackoff flaky halfJitter emptyConfig))%nat
  ∧ Z.of_nat (invocations (retryWithBackoff flaky halfJitter emptyConfig)) ≤ 4
  ∧ Forall (λ d, (d <= 10000)%Q) (sleeps (retryWithBackoff flaky halfJitter emptyConfig)).
Proof.
  assert (0 ≤ maxRetries_ emptyConfig) as Hmax by (vm_compute; discriminate).
  destruct (retryWithBackoff_budget flaky halfJitter emptyConfig Hmax)
    as (Hone & Hmost & _ & Hsleeps).
  split; [exact Hmax|]. split; [exact Hone|]. split; [exact Hmost | exact Hsleeps].
Defined.

Lemma retryWithBackoff_no_attempt_witness :
  maxRetries_ noRetries < 0
  ∧ retryWithBackoff flaky halfJitter noRetries = mkRun (Rejected None) 0 [].
Proof.
  assert (maxRetries_ noRetries < 0) as Hneg by reflexivity.
  split; [exact Hneg|]. exact (retryWithBackoff_no_attempt flaky halfJitter noRetries Hneg).
Defined.

Lemma retryWithBackoff_stops_witness :
  Z.of_nat 2 ≤ maxRetries_ emptyConfig
  ∧ (∀ j, (j < 2)%nat → ∃ response, flaky j = Rejected (AxiosError response))
  ∧ result (retryWithBackoff flaky halfJitter emptyConfig) = Resolved 7%nat
  ∧ invocations (retryWithBackoff flaky halfJitter emptyConfig) = 3%nat
  ∧ length (sleeps (retryWithBackoff flaky halfJitter emptyConfig)) = 2%nat.
Proof.
  assert (Z.of_nat 2 ≤ maxRetries_ emptyConfig) as Hk by (vm_compute; discriminate).
  assert (∀ j, (j < 2)%nat → ∃ response, flaky j = Rejected (AxiosError response)) as Hfail.
  { intros [|[|j]] Hj; [by eexists | by eexists | lia]. }
  split; [exact Hk|]. split; [exact Hfail|].
  exact (retryWithBackoff_stops flaky halfJitter emptyConfig 2 Hk Hfail I).
Defined.

Lemma retryWithBackoff_axios_witness :
  0 ≤ maxRetries_ emptyConfig
  ∧ Z.of_nat (invocations (retryWithBackoff alwaysUnavailable halfJitter emptyConfig)) = 4
  ∧ result (retryWithBackoff alwaysUnavailable halfJitter emptyConfig)
    = Rejected (Some (AxiosError (Some 503))).
Proof.
  assert (0 ≤ maxRetries_ emptyConfig) as Hmax by (vm_compute; discriminate).
  split; [exact Hmax|].
  exact (retryWithBackoff_axios halfJitter alwaysUnavailable emptyConfig (Some 503) Hmax
           (λ _, eq_refl)).
Defined.

(** A service whose Redis connection is up, with nothing cached. *)
Definition redisUp : State nat := mkState true 30 ∅ true true.

Lemma noRedisHit_miss : noRedisHit (Reply None : RedisReply (option nat)).
Proof. intros data. discriminate. Qed.

Lemma noRedisHit_error : noRedisHit (RedisError : RedisReply (option nat)).
Proof. intros data. discriminate. Qed.

Lemma get_after_set_witness :
  0 ≤ cacheTTL (Some 60) redisUp ∧ 60000 ≤ 0 + cacheTTL (Some 60) redisUp * 1000
  ∧ noRedisHit (RedisError : RedisReply (option nat))
  ∧ (get RedisError 60000 "tokens:aggregated"
       (set RedisError 0 "tokens:aggregated" 7%nat (Some 60) redisUp)).1 = Some 7%nat.
Proof.
  assert (0 ≤ cacheTTL (Some 60) redisUp) as Httl by (vm_compute; discriminate).
  assert (60000 ≤ 0 + cacheTTL (Some 60) redisUp * 1000) as Hlive
    by (vm_compute; discriminate).
  split; [exact Httl|]. split; [exact Hlive|]. split; [exact noRedisHit_error|].
  exact (get_after_set RedisError RedisError 0 60000 "tokens:aggregated" 7%nat (Some 60)
           redisUp Httl Hlive noRedisHit_error).
Defined.

Lemma get_after_expiry_witness :
  0 + cacheTTL None redisUp * 1000 < 30001
  ∧ noRedisHit (Reply None : RedisReply (option nat))
  ∧ (get (Reply None) 30001 "k" (set (Reply ()) 0 "k" 7%nat None redisUp)).1 = None.
Proof.
  assert (0 + cacheTTL None redisUp * 1000 < 30001) as Hdead by reflexivity.
  split; [exact Hdead|]. split; [exact noRedisHit_miss|].
  exact (proj1 (get_after_expiry (Reply ()) (Reply None) 0 30001 "k" 7%nat None redisUp
                  Hdead noRedisHit_miss)).
Defined.

Lemma get_after_del_witness :
  noRedisHit (Reply None : RedisReply (option nat))
  ∧ (get (Reply None) 5 "k" (del (Reply ()) "k" (set (Reply ()) 0 "k" 7%nat None redisUp))).1
    = None.
Proof.
  split; [exact noRedisHit_miss|].
  exact (proj1 (get_after_del (Reply ()) (Reply None) 5 "k"
                  (set (Reply ()) 0 "k" 7%nat None redisUp) noRedisHit_miss)).
Defined.

Lemma get_other_key_witness :
  "a" ≠ "b" ∧ 0 ≤ 5 ∧ noRedisHit (Reply None : RedisReply (option nat))
  ∧ (get (Reply None) 5 "a" (set (Reply ()) 0 "b" 7%nat None redisUp)).1
    = (get (Reply None) 5 "a" redisUp).1.
Proof.
  assert ("a" ≠ "b") as Hne by discriminate.
  assert (0 ≤ 5) as Hclock by lia.
  split; [exact Hne|]. split; [exact Hclock|]. split; [exact noRedisHit_miss|].
  exact (get_other_key (Reply ()) (Reply None) 0 5 "b" "a" 7%nat None redisUp
           Hne Hclock noRedisHit_miss).
Defined.

Lemma get_falls_back_witness :
  redisOn redisUp = true
  ∧ redisOn (get RedisError 0 "k" redisUp).2 = false.
Proof.
  split; [reflexivity|].
  exact (proj1 (proj2 (get_falls_back 0 "k" redisUp eq_refl))).
Defined.

(** One caller computes and stores; the next one is served from the
    cache. *)
Definition oneAfterTheOther : list (Move nat unit) :=
  [ Run 0 (Resume 0); Run 0 (Resume 0);
    Run 0 (FetchSettled (Resolved 7%nat) 10); Run 0 (Resume 10);
    Run 1 (Resume 20); Run 1 (Resume 20) ].

Definition secondServed : System nat unit :=
  mkSystem (setInMemory 10 "k" 7%nat 30 (memoryOnly nat 30))
           [ReturnedData 7%nat; ReturnedCached 7%nat] 1
           [Hit 1 7%nat; Return 0 7%nat; Store 0 7%nat; Invoke 0].

Lemma secondServed_reachable :
  reachable "k" None (memoryOnly nat 30) 2 secondServed.
Proof. exists oneAfterTheOther. vm_compute. reflexivity. Qed.

Lemma getOrSet_events_once_witness :
  reachable "k" None (memoryOnly nat 30) 2 secondServed
  ∧ NoDup (trace secondServed).
Proof.
  split; [exact secondServed_reachable|].
  exact (proj1 (getOrSet_events_once "k" None (memoryOnly nat 30) 2 secondServed
                  secondServed_reachable)).
Defined.

Lemma getOrSet_failure_not_cached_witness :
  reachable "k" None (memoryOnly nat 30) 2 secondServed
  ∧ callers secondServed !! 1%nat = Some (ReturnedCached 7%nat)
  ∧ Invoke 1 ∉ trace secondServed.
Proof.
  split; [exact secondServed_reachable|]. split; [reflexivity|].
  exact (proj2 (getOrSet_failure_not_cached "k" None (memoryOnly nat 30) 2 secondServed 1
                  secondServed_reachable) 7%nat eq_refl).
Defined.

Lemma getOrSet_then_cached_witness :
  (get (Reply None) 0 "k" redisUp).1 = None
  ∧ noRedisHit (Reply None : RedisReply (option nat))
  ∧ 0 ≤ cacheTTL (Some 30) redisUp
  ∧ 20 ≤ 10 + cacheTTL (Some 30) redisUp * 1000
  ∧ (getOrSet (Reply None) (Rejected () : Outcome unit nat) (Reply ()) 20 25 "k" (Some 30)
       (getOrSet (Reply None) (Resolved 7%nat : Outcome unit nat) (Reply ()) 0 10 "k"
          (Some 30) redisUp).1.2).1.1 = Resolved 7%nat.
Proof.
  assert ((get (Reply None) 0 "k" redisUp).1 = None) as Hmiss by reflexivity.
  assert (0 ≤ cacheTTL (Some 30) redisUp) as Httl by (vm_compute; discriminate).
  assert (20 ≤ 10 + cacheTTL (Some 30) redisUp * 1000) as Hlive by (vm_compute; discriminate).
  split; [exact Hmiss|]. split; [exact noRedisHit_miss|]. split; [exact Httl|].
  split; [exact Hlive|].
  exact (proj1 (proj2 (proj2
           (getOrSet_then_cached (Reply None) (Reply ()) (Reply None) (Reply ()) 7%nat
              (Rejected ()) 0 10 20 25 "k" (Some 30) redisUp
              Hmiss noRedisHit_miss Httl Hlive)))).
Defined.

(** One token as two sources give it: DexScreener with its metrics, Jupiter
    with a price only, the address in another letter case. *)
Definition listed : Token :=
  mkToken "So1ABC" "Bonk" "BONK" (1 # 1000) 5000 700 300 40
    (Some 2%Q) (Some (-3)%Q) None "raydium" (Some "dexscreener") (Some 1000%Q).

Definition priced : Token :=
  mkToken "so1abc" "Bonk Inu" "Bonk" ((2 # 1) / 100) 0 0 0 0
    None None None "Jupiter" (Some "jupiter") (Some 2000%Q).

Lemma mergeTokens_distinct_witness :
  NoDup (identityKey <$> mockTokens) ∧ mergeTokens mockTokens = mockTokens.
Proof.
  assert (NoDup (identityKey <$> mockTokens)) as Hnd.
  { repeat (apply NoDup_cons; split;
              [rewrite ?not_elem_of_cons; repeat split; try discriminate;
               apply not_elem_of_nil|]).
    apply NoDup_nil_2. }
  split; [exact Hnd|]. exact (proj1 (mergeTokens_distinct mockTokens) Hnd).
Defined.

Lemma mergeTokens_largest_witness :
  mergeTokenData listed priced ∈ mergeTokens [listed; priced]
  ∧ largestOf volume_sol [listed; priced] (mergeTokenData listed priced).
Proof.
  assert (mergeTokenData listed priced ∈ mergeTokens [listed; priced]) as Hin.
  { apply list_elem_of_here. }
  split; [exact Hin|].
  exact (proj1 (mergeTokens_largest [listed; priced] (mergeTokenData listed priced) Hin)).
Defined.

Lemma enrichTokenWithPrice_secondary_witness :
  enrichTokenWithPrice "so1abc" "Bonk Inu" "Bonk" (Some (2 # 1)%Q) 2000 = Some priced
  ∧ calculateDataCompleteness priced = 0%nat
  ∧ token_name (mergeTokenData listed priced) = "Bonk"
  ∧ protocol (mergeTokenData listed priced) = "raydium".
Proof.
  assert (enrichTokenWithPrice "so1abc" "Bonk Inu" "Bonk" (Some (2 # 1)%Q) 2000
          = Some priced) as Henrich by reflexivity.
  destruct (enrichTokenWithPrice_secondary "so1abc" "Bonk Inu" "Bonk" (Some (2 # 1)%Q) 2000
              priced listed Henrich) as (Hscore & _ & Hname & _ & Hprotocol & _).
  split; [exact Henrich|]. split; [exact Hscore|]. split; [exact Hname | exact Hprotocol].
Defined.

Definition twoSources : list (string * Outcome string (list Token)) :=
  [("DexScreener", Resolved [listed]); ("Jupiter", Resolved [priced])].

Lemma fetchAndMerge_distinct_bounded_witness :
  ∃ records,
    fetchAndMerge 200 twoSources = Resolved records
    ∧ NoDup (identityKey <$> records)
    ∧ records ⊆+ mergeTokens (successfulBatches (snd <$> twoSources))
    ∧ (0 ≤ 200 → Z.of_nat (length records) ≤ 200 ∧ limitTokens 200 records = records).
Proof. exact (fetchAndMerge_distinct_bounded 200 twoSources). Defined.


Lemma paginateTokens_negative_limit_witness :
  -1 < 0
  ∧ tokens (paginateTokens mockTokens (mkPaginationOptions (Some (-1)) None))
    = take 2 mockTokens
  ∧ next_cursor (paginateTokens mockTokens (mkPaginationOptions (Some (-1)) None))
    = Some "-1".
Proof.
  assert (-1 < 0) as Hn by lia.
  destruct (paginateTokens_negative_limit mockTokens (-1) Hn) as (Hpage & Hnext & _).
  split; [exact Hn|]. split; [exact Hpage | exact Hnext].
Defined.

Lemma jupiterPopular_distinct_witness :
  NoDup (identityKey <$> jupiterPopular 20 200 [[listed]; [priced; listed]])
  ∧ (0 ≤ 200 → Z.of_nat (length (jupiterPopular 20 200 [[listed]; [priced; listed]])) ≤ 200).
Proof.
  destruct (jupiterPopular_distinct 20 200 [[listed]; [priced; listed]])
    as (Hnd & _ & Hcap & _).
  split; [exact Hnd | exact Hcap].
Defined.

Lemma dexscreenerPopular_trending_witness :
  1 ≤ 40 ∧ 2 ≤ 250
  ∧ dexscreenerPopular 40 250 (Some [listed]) [[listed]] = [listed; listed].
Proof.
  assert (1 ≤ 40) as Hper by lia. assert (2 ≤ 250) as Hcap by lia.
  split; [exact Hper|]. split; [exact Hcap|].
  exact (proj1 (proj2 (proj2 (dexscreenerPopular_trending 40 250 [])) listed Hper Hcap)).
Defined.

Lemma byAddress_finds_witness :
  NoDup (identityKey <$> [listed])
  ∧ listed ∈ [listed] ∧ identityKey listed = toLowerCase "SO1abc"
  ∧ byAddress "SO1abc" [listed] = Ok listed.
Proof.
  assert (NoDup (identityKey <$> [listed])) as Hnd by apply NoDup_singleton.
  assert (listed ∈ [listed]) as Hin by apply list_elem_of_here.
  split; [exact Hnd|]. split; [exact Hin|]. split; [reflexivity|].
  exact (proj2 (proj1 (byAddress_finds "SO1abc" [listed] Hnd) listed) (conj Hin eq_refl)).
Defined.

Lemma aggregateAndProcessTokens_view_witness :
  aggregateAndProcessTokens (Rejected "timeout" : Outcome string (list Token)) None = []
  ∧ aggregateAndProcessTokens (Resolved mockTokens : Outcome string (list Token)) None
    = take 25 mockTokens.
Proof.
  split.
  - exact (proj1 (aggregateAndProcessTokens_view (Rejected "timeout") None)
             "timeout" eq_refl).
  - exact (proj2 (proj2 (proj2 (proj2 (aggregateAndProcessTokens_view
             (Resolved mockTokens : Outcome string (list Token)) None) mockTokens eq_refl)))
             eq_refl).
Defined.

Definition session : list SocketEvent :=
  [connection "b"; updatePreferences "b" (mkClientPreferences None None None);
   disconnect "b"].

Lemma handle_registry_witness :
  Forall (λ event, eventClient event ≠ "a") session
  ∧ foldl handle ∅ session !! "a" = (∅ : gmap string ClientPreferences) !! "a".
Proof.
  assert (Forall (λ event, eventClient event ≠ "a") session) as Hother.
  { repeat constructor; discriminate. }
  split; [exact Hother|]. exact (proj1 (handle_registry session ∅ "a") Hother).
Defined.

End MoreInstances.
